(** * End-to-end encryption layer of the chat client ([src/lib/crypto.ts])

    A shallow embedding of [crypto.ts] and of the parts of the web platform
    it calls, together with the properties the specification states about it.

    - The string and byte plumbing of the platform is modelled concretely and
      is executable: JavaScript strings are lists of UTF-16 code units,
      [btoa]/[atob] follow the forgiving base64 algorithm, [TextEncoder] and
      [TextDecoder] follow the UTF-8 encoder and decoder of the Encoding
      standard, objects keep their own properties in creation order, and
      [JSON.parse]/[JSON.stringify] follow ECMA-262.
    - The cryptographic cores (RSA-OAEP, AES-GCM, SHA-256, SPKI and PKCS8
      serialisation, the random source) and the built-in prototypes of the
      realm are operations of a class [Platform]; what is assumed about them
      is stated in a record of laws and is functional correctness, never a
      security guarantee.  PBKDF2 and HMAC are written out over the hash.
    - Promises are modelled by a state and error monad over the random
      source and the IndexedDB object store. *)

From Stdlib Require Import List NArith ZArith Lia Bool String Ascii.
From Stdlib Require Import Strings.Byte.
From stdpp Require Import base option gmap.
Import ListNotations.

Local Open Scope N_scope.
Set Warnings "-register-all".

(* ===================================================================== *)
(** * Values shared by all modules *)

(** A JavaScript string is a sequence of 16-bit code units. *)
Definition jsstring := list N.

(** The content of an [ArrayBuffer] or [Uint8Array]. *)
Definition bytes := list byte.

(** A code unit fits in sixteen bits. *)
Definition is_code_unit (c : N) : bool := c <? 65536.
Definition is_jsstring (s : jsstring) : bool := forallb is_code_unit s.

(** String literals of the source, as code units. *)
Definition lit (s : string) : jsstring :=
  List.map N_of_ascii (list_ascii_of_string s).

(** The exceptions that the modelled platform calls raise. *)
Inductive error : Type :=
  | InvalidCharacterError   (* atob, btoa *)
  | SyntaxError             (* JSON.parse *)
  | TypeError               (* property access on null *)
  | DataError               (* importKey on malformed key data *)
  | OperationError          (* encrypt, decrypt, deriveKey failures *)
  | InvalidAccessError      (* key used against its usages or extractability *)
  | NotSupportedError.      (* a key format the algorithm does not have *)

Inductive result (A : Type) : Type :=
  | Ok (a : A)
  | Throw (e : error).
Arguments Ok {A} a.
Arguments Throw {A} e.

Definition is_ok {A} (r : result A) : bool :=
  match r with Ok _ => true | Throw _ => false end.

Definition byte_of_N (n : N) : byte :=
  match Byte.of_N (n mod 256) with Some b => b | None => x00 end.

(** [String.fromCharCode(...new Uint8Array(buf))] *)
Definition fromCharCodes (b : bytes) : jsstring := List.map Byte.to_N b.

(** [Uint8Array.from(s, c => c.charCodeAt(0))]: every code unit is reduced
    modulo 256 when it is stored in the typed array. *)
Definition charCodes (s : jsstring) : bytes := List.map byte_of_N s.

(* ===================================================================== *)
(** * [btoa] and [atob] *)

Module Base64.

(** The character of a six-bit value. *)
Definition b64_char (n : N) : N :=
  if n <? 26 then 65 + n
  else if n <? 52 then 71 + n
  else if n <? 62 then n - 4
  else if n =? 62 then 43 else 47.

(** The six-bit value of a character of the alphabet. *)
Definition b64_val (c : N) : option N :=
  if (65 <=? c) && (c <=? 90) then Some (c - 65)
  else if (97 <=? c) && (c <=? 122) then Some (c - 71)
  else if (48 <=? c) && (c <=? 57) then Some (c + 4)
  else if c =? 43 then Some 62
  else if c =? 47 then Some 63
  else None.

Definition eq_sign : N := 61.

Fixpoint b64_encode (l : list N) : jsstring :=
  match l with
  | [] => []
  | [a] => [b64_char (a / 4); b64_char ((a mod 4) * 16); eq_sign; eq_sign]
  | [a; b] =>
      [b64_char (a / 4); b64_char ((a mod 4) * 16 + b / 16);
       b64_char ((b mod 16) * 4); eq_sign]
  | a :: b :: c :: rest =>
      b64_char (a / 4) :: b64_char ((a mod 4) * 16 + b / 16)
      :: b64_char ((b mod 16) * 4 + c / 64) :: b64_char (c mod 64)
      :: b64_encode rest
  end.

(** The encoding without its padding. *)
Fixpoint b64_body (l : list N) : jsstring :=
  match l with
  | [] => []
  | [a] => [b64_char (a / 4); b64_char ((a mod 4) * 16)]
  | [a; b] =>
      [b64_char (a / 4); b64_char ((a mod 4) * 16 + b / 16);
       b64_char ((b mod 16) * 4)]
  | a :: b :: c :: rest =>
      b64_char (a / 4) :: b64_char ((a mod 4) * 16 + b / 16)
      :: b64_char ((b mod 16) * 4 + c / 64) :: b64_char (c mod 64)
      :: b64_body rest
  end.

Fixpoint b64_pad (l : list N) : jsstring :=
  match l with
  | [] => []
  | [_] => [eq_sign; eq_sign]
  | [_; _] => [eq_sign]
  | _ :: _ :: _ :: rest => b64_pad rest
  end.

(** [btoa(s)] throws when [s] has a code unit above 0xFF. *)
Definition btoa (s : jsstring) : result jsstring :=
  if forallb (fun c => c <? 256) s then Ok (b64_encode s)
  else Throw InvalidCharacterError.

(** ASCII whitespace: TAB, LF, FF, CR and SPACE. *)
Definition is_ascii_whitespace (c : N) : bool :=
  (c =? 9) || (c =? 10) || (c =? 12) || (c =? 13) || (c =? 32).

(** Step 2 of forgiving-base64 decode: when the length is a multiple of
    four, one or two trailing ['='] are removed. *)
Definition strip_padding (s : jsstring) : jsstring :=
  if (length s mod 4 =? 0)%nat then
    match rev s with
    | c1 :: r1 =>
        if c1 =? eq_sign then
          match r1 with
          | c2 :: r2 => if c2 =? eq_sign then rev r2 else rev r1
          | [] => rev r1
          end
        else s
    | [] => s
    end
  else s.

Fixpoint b64_vals (s : jsstring) : option (list N) :=
  match s with
  | [] => Some []
  | c :: s' =>
      match b64_val c, b64_vals s' with
      | Some v, Some vs => Some (v :: vs)
      | _, _ => None
      end
  end.

(** Groups of four values give three bytes; a rest of two values gives one
    byte and a rest of three gives two, the surplus bits being discarded
    without inspection. *)
Fixpoint b64_decode_vals (l : list N) : list N :=
  match l with
  | a :: b :: c :: d :: rest =>
      (a * 4 + b / 16) :: ((b mod 16) * 16 + c / 4) :: ((c mod 4) * 64 + d)
      :: b64_decode_vals rest
  | [a; b; c] => [a * 4 + b / 16; (b mod 16) * 16 + c / 4]
  | [a; b] => [a * 4 + b / 16]
  | _ => []
  end.

Definition atob (s : jsstring) : result jsstring :=
  let s1 := List.filter (fun c => negb (is_ascii_whitespace c)) s in
  let s2 := strip_padding s1 in
  if (length s2 mod 4 =? 1)%nat then Throw InvalidCharacterError
  else
    match b64_vals s2 with
    | Some vs => Ok (b64_decode_vals vs)
    | None => Throw InvalidCharacterError
    end.

End Base64.

(* ===================================================================== *)
(** * [TextEncoder] and [TextDecoder] *)

Module Utf8.

Definition is_high_surrogate (c : N) : bool := (0xD800 <=? c) && (c <=? 0xDBFF).
Definition is_low_surrogate (c : N) : bool := (0xDC00 <=? c) && (c <=? 0xDFFF).

Definition replacement : N := 0xFFFD.

(** Conversion of a JavaScript string to scalar values: a surrogate pair is
    one code point, a surrogate without its partner becomes U+FFFD. *)
Fixpoint to_scalars (s : jsstring) : list N :=
  match s with
  | [] => []
  | c :: s' =>
      if is_high_surrogate c then
        match s' with
        | d :: s'' =>
            if is_low_surrogate d
            then (0x10000 + (c - 0xD800) * 0x400 + (d - 0xDC00)) :: to_scalars s''
            else replacement :: to_scalars s'
        | [] => [replacement]
        end
      else if is_low_surrogate c then replacement :: to_scalars s'
      else c :: to_scalars s'
  end.

Definition utf8_encode_cp (cp : N) : bytes :=
  if cp <? 0x80 then [byte_of_N cp]
  else if cp <? 0x800 then
    [byte_of_N (0xC0 + cp / 64); byte_of_N (0x80 + cp mod 64)]
  else if cp <? 0x10000 then
    [byte_of_N (0xE0 + cp / 4096); byte_of_N (0x80 + (cp / 64) mod 64);
     byte_of_N (0x80 + cp mod 64)]
  else
    [byte_of_N (0xF0 + cp / 262144); byte_of_N (0x80 + (cp / 4096) mod 64);
     byte_of_N (0x80 + (cp / 64) mod 64); byte_of_N (0x80 + cp mod 64)].

(** [new TextEncoder().encode(s)] *)
Definition encode (s : jsstring) : bytes :=
  flat_map utf8_encode_cp (to_scalars s).

(** State of the UTF-8 decoder: the code point being assembled, the number
    of continuation bytes still expected, and the bounds of the next one. *)
Record decoder_state : Type := mkDecoder {
  d_code_point : N;
  d_remaining : nat;
  d_lower : N;
  d_upper : N
}.

Definition decoder_init : decoder_state := mkDecoder 0 0 0x80 0xBF.

(** A byte read while no sequence is open: the code points it emits and the
    state it leaves. *)
Definition lead_byte (n : N) : list N * decoder_state :=
  if n <=? 0x7F then ([n], decoder_init)
  else if (0xC2 <=? n) && (n <=? 0xDF) then
    ([], mkDecoder (n - 0xC0) 1 0x80 0xBF)
  else if (0xE0 <=? n) && (n <=? 0xEF) then
    ([], mkDecoder (n - 0xE0) 2
           (if n =? 0xE0 then 0xA0 else 0x80)
           (if n =? 0xED then 0x9F else 0xBF))
  else if (0xF0 <=? n) && (n <=? 0xF4) then
    ([], mkDecoder (n - 0xF0) 3
           (if n =? 0xF0 then 0x90 else 0x80)
           (if n =? 0xF4 then 0x8F else 0xBF))
  else ([replacement], decoder_init).

(** The decoder in replacement mode.  A byte that cannot continue the open
    sequence closes it with U+FFFD and is read again as a lead byte; an open
    sequence at the end of the input gives U+FFFD. *)
Fixpoint decode_from (st : decoder_state) (bs : bytes) : list N :=
  match bs with
  | [] => match d_remaining st with O => [] | S _ => [replacement] end
  | b :: bs' =>
      let n := Byte.to_N b in
      match d_remaining st with
      | O => let (out, st') := lead_byte n in out ++ decode_from st' bs'
      | S r =>
          if (d_lower st <=? n) && (n <=? d_upper st) then
            let cp := d_code_point st * 64 + n mod 64 in
            match r with
            | O => cp :: decode_from decoder_init bs'
            | S _ => decode_from (mkDecoder cp r 0x80 0xBF) bs'
            end
          else
            let (out, st') := lead_byte n in
            replacement :: out ++ decode_from st' bs'
      end
  end.

(** The decoder is created without [ignoreBOM], so a leading byte order mark
    is consumed and not part of the output. *)
Definition strip_bom (bs : bytes) : bytes :=
  match bs with
  | b1 :: b2 :: b3 :: rest =>
      if (Byte.to_N b1 =? 0xEF) && (Byte.to_N b2 =? 0xBB) && (Byte.to_N b3 =? 0xBF)
      then rest else bs
  | _ => bs
  end.

Definition utf16_encode_cp (cp : N) : jsstring :=
  if cp <? 0x10000 then [cp]
  else [0xD800 + (cp - 0x10000) / 0x400; 0xDC00 + (cp - 0x10000) mod 0x400].

(** [new TextDecoder().decode(buf)] *)
Definition decode (bs : bytes) : jsstring :=
  flat_map utf16_encode_cp (decode_from decoder_init (strip_bom bs)).




End Utf8.

(* ===================================================================== *)
(** * Objects and JSON *)

Module Js.

Import Utf8.

(** The values [JSON.parse] can return.  A number keeps its source text,
    since nothing in [crypto.ts] computes with numbers; an object keeps its
    own properties in creation order, with distinct names. *)
Inductive json : Type :=
  | JNull
  | JBool (b : bool)
  | JNum (token : jsstring)
  | JStr (s : jsstring)
  | JArr (items : list json)
  | JObj (props : list (jsstring * json)).

Definition str_eqb (a b : jsstring) : bool := bool_decide (a = b).

(** ** Own properties *)

Fixpoint obj_get {V} (o : list (jsstring * V)) (k : jsstring) : option V :=
  match o with
  | [] => None
  | (k', v) :: o' => if str_eqb k' k then Some v else obj_get o' k
  end.

(** Definition of an own data property: an existing property keeps its place
    and takes the new value, a new one is added last. *)
Fixpoint obj_set {V} (o : list (jsstring * V)) (k : jsstring) (v : V)
  : list (jsstring * V) :=
  match o with
  | [] => [(k, v)]
  | (k', v') :: o' =>
      if str_eqb k' k then (k', v) :: o' else (k', v') :: obj_set o' k v
  end.

Definition proto_name : jsstring := lit "__proto__".

(** [o[k] = v] for a string [v] on an ordinary object.  The name
    [__proto__] reaches the accessor of [Object.prototype], whose setter
    ignores a value that is neither an object nor [null]. *)
Definition obj_assign (o : list (jsstring * jsstring)) (k v : jsstring)
  : list (jsstring * jsstring) :=
  if str_eqb k proto_name then o else obj_set o k v.

Definition is_digit (c : N) : bool := (48 <=? c) && (c <=? 57).

Fixpoint decimal_value (acc : N) (s : jsstring) : option N :=
  match s with
  | [] => Some acc
  | c :: s' => if is_digit c then decimal_value (acc * 10 + (c - 48)) s' else None
  end.

(** An array index is the canonical decimal form of an integer below
    2^32 - 1. *)
Definition array_index (k : jsstring) : option N :=
  match k with
  | [] => None
  | c :: k' =>
      if (c =? 48) && negb (bool_decide (k' = [])) then None
      else match decimal_value 0 k with
           | Some n => if n <? 4294967295 then Some n else None
           | None => None
           end
  end.

Definition is_array_index (k : jsstring) : bool :=
  match array_index k with Some _ => true | None => false end.

Fixpoint insert_index {V} (i : N) (p : jsstring * V)
    (l : list (N * (jsstring * V))) : list (N * (jsstring * V)) :=
  match l with
  | [] => [(i, p)]
  | (j, q) :: l' => if i <? j then (i, p) :: l else (j, q) :: insert_index i p l'
  end.

Fixpoint index_properties {V} (o : list (jsstring * V))
  : list (N * (jsstring * V)) :=
  match o with
  | [] => []
  | p :: o' =>
      match array_index (fst p) with
      | Some i => insert_index i p (index_properties o')
      | None => index_properties o'
      end
  end.

(** The own properties in the order of [Object.entries]: array indices in
    ascending order, then the other names in creation order. *)
Definition own_properties {V} (o : list (jsstring * V)) : list (jsstring * V) :=
  List.map snd (index_properties o)
  ++ List.filter (fun p => negb (is_array_index (fst p))) o.

(** ** [JSON.stringify] of an object whose values are strings *)

Definition hex_char (v : N) : N := if v <? 10 then 48 + v else 87 + v.

Definition unicode_escape (c : N) : jsstring :=
  [92; 117; hex_char (c / 4096); hex_char ((c / 256) mod 16);
   hex_char ((c / 16) mod 16); hex_char (c mod 16)].

Definition quote_unit (c : N) : jsstring :=
  if c =? 8 then [92; 98]
  else if c =? 9 then [92; 116]
  else if c =? 10 then [92; 110]
  else if c =? 12 then [92; 102]
  else if c =? 13 then [92; 114]
  else if c =? 34 then [92; 34]
  else if c =? 92 then [92; 92]
  else if c <? 32 then unicode_escape c
  else [c].

Fixpoint quote_body (s : jsstring) : jsstring :=
  match s with
  | [] => []
  | c :: s' =>
      if is_high_surrogate c then
        match s' with
        | d :: s'' =>
            if is_low_surrogate d then c :: d :: quote_body s''
            else unicode_escape c ++ quote_body s'
        | [] => unicode_escape c
        end
      else if is_low_surrogate c then unicode_escape c ++ quote_body s'
      else quote_unit c ++ quote_body s'
  end.

Definition quote (s : jsstring) : jsstring := 34 :: quote_body s ++ [34].

Fixpoint join_with (sep : N) (l : list jsstring) : jsstring :=
  match l with
  | [] => []
  | [m] => m
  | m :: l' => m ++ sep :: join_with sep l'
  end.

Definition stringify_member (p : jsstring * jsstring) : jsstring :=
  quote (fst p) ++ 58 :: quote (snd p).

Definition JSON_stringify (o : list (jsstring * jsstring)) : jsstring :=
  123 :: join_with 44 (List.map stringify_member (own_properties o)) ++ [125].

(** ** [JSON.parse] *)

Definition is_json_whitespace (c : N) : bool :=
  (c =? 9) || (c =? 10) || (c =? 13) || (c =? 32).

Fixpoint skip_ws (s : jsstring) : jsstring :=
  match s with
  | c :: s' => if is_json_whitespace c then skip_ws s' else s
  | [] => []
  end.

Definition hex_val (c : N) : option N :=
  if (48 <=? c) && (c <=? 57) then Some (c - 48)
  else if (97 <=? c) && (c <=? 102) then Some (c - 87)
  else if (65 <=? c) && (c <=? 70) then Some (c - 55)
  else None.

Definition hex4 (a b c d : N) : option N :=
  match hex_val a, hex_val b, hex_val c, hex_val d with
  | Some x, Some y, Some z, Some w => Some (x * 4096 + y * 256 + z * 16 + w)
  | _, _, _, _ => None
  end.

Definition simple_escape (e : N) : option N :=
  if e =? 34 then Some 34
  else if e =? 92 then Some 92
  else if e =? 47 then Some 47
  else if e =? 98 then Some 8
  else if e =? 102 then Some 12
  else if e =? 110 then Some 10
  else if e =? 114 then Some 13
  else if e =? 116 then Some 9
  else None.

(** The characters after an opening quote, up to the closing one. *)
Fixpoint parse_string_body (s : jsstring) : option (jsstring * jsstring) :=
  match s with
  | [] => None
  | c :: rest =>
      if c =? 34 then Some ([], rest)
      else if c =? 92 then
        match rest with
        | [] => None
        | e :: rest1 =>
            if e =? 117 then
              match rest1 with
              | h1 :: h2 :: h3 :: h4 :: rest2 =>
                  match hex4 h1 h2 h3 h4, parse_string_body rest2 with
                  | Some u, Some (t, r) => Some (u :: t, r)
                  | _, _ => None
                  end
              | _ => None
              end
            else
              match simple_escape e, parse_string_body rest1 with
              | Some u, Some (t, r) => Some (u :: t, r)
              | _, _ => None
              end
        end
      else if c <? 32 then None
      else
        match parse_string_body rest with
        | Some (t, r) => Some (c :: t, r)
        | None => None
        end
  end.

Fixpoint span_digits (s : jsstring) : jsstring * jsstring :=
  match s with
  | c :: s' =>
      if is_digit c then let (d, r) := span_digits s' in (c :: d, r) else ([], s)
  | [] => ([], [])
  end.

Definition parse_sign (s : jsstring) : jsstring * jsstring :=
  match s with
  | c :: s' => if c =? 45 then ([c], s') else ([], s)
  | [] => ([], [])
  end.

Definition parse_int_part (s : jsstring) : option (jsstring * jsstring) :=
  match s with
  | c :: s' =>
      if c =? 48 then Some ([c], s')
      else if is_digit c then let (d, r) := span_digits s' in Some (c :: d, r)
      else None
  | [] => None
  end.

Definition parse_fraction (s : jsstring) : option (jsstring * jsstring) :=
  match s with
  | c :: s' =>
      if c =? 46 then
        match span_digits s' with
        | ([], _) => None
        | (d, r) => Some (c :: d, r)
        end
      else Some ([], s)
  | [] => Some ([], [])
  end.

Definition parse_exponent (s : jsstring) : option (jsstring * jsstring) :=
  match s with
  | c :: s' =>
      if (c =? 101) || (c =? 69) then
        let (sg, s1) :=
          match s' with
          | g :: s'' => if (g =? 43) || (g =? 45) then ([g], s'') else ([], s')
          | [] => ([], [])
          end in
        match span_digits s1 with
        | ([], _) => None
        | (d, r) => Some (c :: sg ++ d, r)
        end
      else Some ([], s)
  | [] => Some ([], [])
  end.

Definition parse_number (s : jsstring) : option (jsstring * jsstring) :=
  let (sg, s0) := parse_sign s in
  match parse_int_part s0 with
  | None => None
  | Some (i, s1) =>
      match parse_fraction s1 with
      | None => None
      | Some (f, s2) =>
          match parse_exponent s2 with
          | None => None
          | Some (e, s3) => Some (sg ++ i ++ f ++ e, s3)
          end
      end
  end.

Fixpoint strip_prefix (p s : jsstring) : option jsstring :=
  match p, s with
  | [], _ => Some s
  | a :: p', b :: s' => if a =? b then strip_prefix p' s' else None
  | _ :: _, [] => None
  end.

(** One JSON value at the head of [s], and what follows it.  The fuel
    bounds the number of values read; [JSON_parse] gives more than a text of
    that length can hold. *)
Fixpoint parse_value (fuel : nat) (s : jsstring) : option (json * jsstring) :=
  match fuel with
  | O => None
  | S f =>
      match skip_ws s with
      | [] => None
      | c :: r =>
          if c =? 123 then
            match skip_ws r with
            | c' :: r' =>
                if c' =? 125 then Some (JObj [], r') else parse_members f r []
            | [] => None
            end
          else if c =? 91 then
            match skip_ws r with
            | c' :: r' =>
                if c' =? 93 then Some (JArr [], r') else parse_elements f r []
            | [] => None
            end
          else if c =? 34 then
            match parse_string_body r with
            | Some (t, r') => Some (JStr t, r')
            | None => None
            end
          else if c =? 116 then
            match strip_prefix (lit "rue") r with
            | Some r' => Some (JBool true, r')
            | None => None
            end
          else if c =? 102 then
            match strip_prefix (lit "alse") r with
            | Some r' => Some (JBool false, r')
            | None => None
            end
          else if c =? 110 then
            match strip_prefix (lit "ull") r with
            | Some r' => Some (JNull, r')
            | None => None
            end
          else
            match parse_number (c :: r) with
            | Some (t, r') => Some (JNum t, r')
            | None => None
            end
      end
  end

(** The members of an object after its opening brace; [acc] holds the
    properties defined so far.  A repeated name redefines the property. *)
with parse_members (fuel : nat) (s : jsstring) (acc : list (jsstring * json))
  : option (json * jsstring) :=
  match fuel with
  | O => None
  | S f =>
      match skip_ws s with
      | c :: r =>
          if c =? 34 then
            match parse_string_body r with
            | Some (k, r1) =>
                match skip_ws r1 with
                | c1 :: r2 =>
                    if c1 =? 58 then
                      match parse_value f r2 with
                      | Some (v, r3) =>
                          match skip_ws r3 with
                          | c3 :: r4 =>
                              if c3 =? 44 then parse_members f r4 (obj_set acc k v)
                              else if c3 =? 125 then Some (JObj (obj_set acc k v), r4)
                              else None
                          | [] => None
                          end
                      | None => None
                      end
                    else None
                | [] => None
                end
            | None => None
            end
          else None
      | [] => None
      end
  end

(** The elements of an array after its opening bracket. *)
with parse_elements (fuel : nat) (s : jsstring) (acc : list json)
  : option (json * jsstring) :=
  match fuel with
  | O => None
  | S f =>
      match parse_value f s with
      | Some (v, r1) =>
          match skip_ws r1 with
          | c :: r2 =>
              if c =? 44 then parse_elements f r2 (acc ++ [v])
              else if c =? 93 then Some (JArr (acc ++ [v]), r2)
              else None
          | [] => None
          end
      | None => None
      end
  end.

(** [JSON.parse(text)]; [None] is the [SyntaxError]. *)
Definition JSON_parse (text : jsstring) : option json :=
  match parse_value (S (length text)) text with
  | Some (v, rest) =>
      match skip_ws rest with
      | [] => Some v
      | _ :: _ => None
      end
  | None => None
  end.

End Js.

(* ===================================================================== *)
(** * Reading a property of a parsed value *)

Module JsValue.

Import Js.

(** What a property inherited from a built-in prototype looks like depends
    on the realm, and numbers are IEEE doubles; both are left to the
    platform.  [inherited k n] is the text [String(v)] of the value [v] found
    under the name [n] on the prototype chain of a value of kind [k], when
    there is one; all such values are functions or objects. *)
Inductive kind : Type := KObject | KArray | KString | KNumber | KBoolean.

Record realm : Type := mkRealm {
  inherited : kind -> jsstring -> option jsstring;
  number_is_zero : jsstring -> bool;
  number_to_string : jsstring -> jsstring
}.

Inductive jsvalue : Type :=
  | VUndefined
  | VJson (j : json)
  | VLength (n : N)            (* the [length] of a string or an array *)
  | VBuiltin (text : jsstring). (* an inherited function or object *)

Definition from_prototype (R : realm) (k : kind) (name : jsstring) : jsvalue :=
  match inherited R k name with
  | Some text => VBuiltin text
  | None => VUndefined
  end.

Definition length_name : jsstring := lit "length".

(** [v[name]]; reading a property of [null] throws. *)
Definition get (R : realm) (v : json) (name : jsstring) : result jsvalue :=
  match v with
  | JNull => Throw TypeError
  | JBool _ => Ok (from_prototype R KBoolean name)
  | JNum _ => Ok (from_prototype R KNumber name)
  | JStr s =>
      if str_eqb name length_name then Ok (VLength (N.of_nat (length s)))
      else
        match array_index name with
        | Some i =>
            match nth_error s (N.to_nat i) with
            | Some c => Ok (VJson (JStr [c]))
            | None => Ok (from_prototype R KString name)
            end
        | None => Ok (from_prototype R KString name)
        end
  | JArr items =>
      if str_eqb name length_name then Ok (VLength (N.of_nat (length items)))
      else
        match array_index name with
        | Some i =>
            match nth_error items (N.to_nat i) with
            | Some x => Ok (VJson x)
            | None => Ok (from_prototype R KArray name)
            end
        | None => Ok (from_prototype R KArray name)
        end
  | JObj props =>
      match obj_get props name with
      | Some x => Ok (VJson x)
      | None => Ok (from_prototype R KObject name)
      end
  end.

(** [Object.values(v)[0]] for a value other than [null]. *)
Definition first_value (v : json) : jsvalue :=
  match v with
  | JObj props =>
      match own_properties props with
      | p :: _ => VJson (snd p)
      | [] => VUndefined
      end
  | JArr (x :: _) => VJson x
  | JStr (c :: _) => VJson (JStr [c])
  | _ => VUndefined
  end.

(** The truth value the operator [||] tests. *)
Definition truthy (R : realm) (v : jsvalue) : bool :=
  match v with
  | VUndefined => false
  | VLength n => negb (n =? 0)
  | VBuiltin _ => true
  | VJson JNull => false
  | VJson (JBool b) => b
  | VJson (JNum t) => negb (number_is_zero R t)
  | VJson (JStr s) => negb (bool_decide (s = []))
  | VJson (JArr _) => true
  | VJson (JObj _) => true
  end.

Fixpoint decimal_digits (fuel : nat) (n : N) (acc : jsstring) : jsstring :=
  match fuel with
  | O => acc
  | S f =>
      if n <? 10 then (48 + n) :: acc
      else decimal_digits f (n / 10) ((48 + n mod 10) :: acc)
  end.

Definition decimal (n : N) : jsstring := decimal_digits (S (N.to_nat (N.log2 n))) n [].

(** [String(j)]; an array joins its elements with commas, [null] elements
    giving the empty string. *)
Fixpoint json_to_string (R : realm) (j : json) : jsstring :=
  match j with
  | JNull => lit "null"
  | JBool true => lit "true"
  | JBool false => lit "false"
  | JNum t => number_to_string R t
  | JStr s => s
  | JArr items =>
      join_with 44
        (List.map (fun x => match x with
                            | JNull => []
                            | _ => json_to_string R x
                            end) items)
  | JObj _ => lit "[object Object]"
  end.

(** The conversion applied to the argument of [atob]. *)
Definition to_string (R : realm) (v : jsvalue) : jsstring :=
  match v with
  | VUndefined => lit "undefined"
  | VJson j => json_to_string R j
  | VLength n => decimal n
  | VBuiltin text => text
  end.

End JsValue.

(* ===================================================================== *)
(** * The platform: cryptographic cores, random source and realm *)

Class Platform : Type := mkPlatform {
  (** the random source behind [getRandomValues] and key generation *)
  rng : Type;
  random_bytes : rng -> nat -> bytes * rng;
  (** RSA keys, generated from a modulus length and a public exponent *)
  rsa_public : Type;
  rsa_private : Type;
  rsa_generate : N -> bytes -> rng -> option (rsa_public * rsa_private) * rng;
  (** RSA-OAEP with SHA-256 and an empty label *)
  rsa_oaep_encrypt : rsa_public -> bytes -> rng -> option bytes * rng;
  rsa_oaep_decrypt : rsa_private -> bytes -> option bytes;
  (** SubjectPublicKeyInfo and PKCS8 serialisation *)
  spki_encode : rsa_public -> bytes;
  spki_decode : bytes -> option rsa_public;
  pkcs8_encode : rsa_private -> bytes;
  pkcs8_decode : bytes -> option rsa_private;
  (** AES-GCM with a 128-bit tag appended to the ciphertext: key, iv, data *)
  aes_gcm_encrypt : bytes -> bytes -> bytes -> bytes;
  aes_gcm_decrypt : bytes -> bytes -> bytes -> option bytes;
  (** the hash under HMAC in PBKDF2 *)
  sha256 : bytes -> bytes;
  (** built-in prototypes and number conversion *)
  builtins : JsValue.realm
}.

(** ** PBKDF2 with HMAC-SHA-256 (RFC 8018, RFC 2104) *)

Module Pbkdf2.

Definition block_size : nat := 64.

Definition xor_byte (a b : byte) : byte :=
  byte_of_N (N.lxor (Byte.to_N a) (Byte.to_N b)).

Fixpoint xor_bytes (a b : bytes) : bytes :=
  match a, b with
  | x :: a', y :: b' => xor_byte x y :: xor_bytes a' b'
  | _, _ => []
  end.

Section WithHash.

Variable H : bytes -> bytes.

(** The key of HMAC brought to the block size: a longer key is hashed, a
    shorter one is filled with zero bytes. *)
Definition key_block (key : bytes) : bytes :=
  let k := if (block_size <? length key)%nat then H key else key in
  k ++ repeat x00 (block_size - length k).

Definition hmac (key msg : bytes) : bytes :=
  let kb := key_block key in
  H (List.map (xor_byte x5c) kb ++ H (List.map (xor_byte x36) kb ++ msg)).

(** The four-byte big-endian block index. *)
Definition int32_be (i : N) : bytes :=
  [byte_of_N (i / 16777216); byte_of_N (i / 65536); byte_of_N (i / 256);
   byte_of_N i].

(** [F(P, S, c, i) = U_1 xor ... xor U_c]. *)
Definition block (password salt : bytes) (iterations : positive) (i : N) : bytes :=
  let u1 := hmac password (salt ++ int32_be i) in
  snd (N.iter (Pos.pred_N iterations)
              (fun st => let u := hmac password (fst st) in
                         (u, xor_bytes (snd st) u))
              (u1, u1)).

Fixpoint blocks (password salt : bytes) (iterations : positive)
    (i : N) (count : nat) : bytes :=
  match count with
  | O => []
  | S n => block password salt iterations i
           ++ blocks password salt iterations (i + 1) n
  end.

(** [length] is the requested size in bytes. *)
Definition derive (password salt : bytes) (iterations : positive)
    (length : nat) : bytes :=
  firstn length (blocks password salt iterations 1 ((length + 31) / 32)%nat).

End WithHash.

End Pbkdf2.

(* ===================================================================== *)
(** * [CryptoKey] and the [SubtleCrypto] calls of the source *)

Module WebCrypto.

Inductive key_type : Type := Public | Private | Secret.

Inductive usage : Type :=
  | Encrypt | Decrypt | DeriveKey | DeriveBits | WrapKey | UnwrapKey
  | Sign | Verify.

Inductive hash_name : Type := SHA_1 | SHA_256 | SHA_384 | SHA_512.

Inductive algorithm : Type :=
  | RSA_OAEP (hash : hash_name)
  | AES_GCM (length : N)
  | PBKDF2.

Definition is_RSA_OAEP (a : algorithm) : bool :=
  match a with RSA_OAEP _ => true | _ => false end.
Definition is_AES_GCM (a : algorithm) : bool :=
  match a with AES_GCM _ => true | _ => false end.
Definition is_PBKDF2 (a : algorithm) : bool :=
  match a with PBKDF2 => true | _ => false end.

Definition usage_code (u : usage) : N :=
  match u with
  | Encrypt => 0 | Decrypt => 1 | DeriveKey => 2 | DeriveBits => 3
  | WrapKey => 4 | UnwrapKey => 5 | Sign => 6 | Verify => 7
  end.

Definition has_usage (u : usage) (l : list usage) : bool :=
  existsb (fun x => usage_code x =? usage_code u) l.

Definition usages_within (allowed l : list usage) : bool :=
  forallb (fun u => has_usage u allowed) l.

Definition usages_among (allowed l : list usage) : list usage :=
  List.filter (fun u => has_usage u allowed) l.

Section WithPlatform.

Context {P : Platform}.

Inductive material : Type :=
  | RsaPublic (k : rsa_public)
  | RsaPrivate (k : rsa_private)
  | Raw (b : bytes).

Record CryptoKey : Type := mkKey {
  key_kind : key_type;
  extractable : bool;
  key_algorithm : algorithm;
  usages : list usage;
  key_material : material
}.

Record CryptoKeyPair : Type := mkPair {
  publicKey : CryptoKey;
  privateKey : CryptoKey
}.

(** [generateKey] for RSA-OAEP.  The public key is always extractable and
    keeps only the usages a public key can have. *)
Definition generateKey_RSA_OAEP (modulusLength : N) (publicExponent : bytes)
    (hash : hash_name) (ext : bool) (us : list usage) (g : rng)
  : result CryptoKeyPair * rng :=
  if negb (usages_within [Encrypt; Decrypt; WrapKey; UnwrapKey] us)
  then (Throw SyntaxError, g)
  else
    match rsa_generate modulusLength publicExponent g with
    | (None, g') => (Throw OperationError, g')
    | (Some (pk, sk), g') =>
        match usages_among [Decrypt; UnwrapKey] us with
        | [] => (Throw SyntaxError, g')
        | priv_us =>
            (Ok (mkPair
                   (mkKey Public true (RSA_OAEP hash)
                      (usages_among [Encrypt; WrapKey] us) (RsaPublic pk))
                   (mkKey Private ext (RSA_OAEP hash) priv_us (RsaPrivate sk))),
             g')
        end
    end.

(** [generateKey] for AES-GCM. *)
Definition generateKey_AES_GCM (length : N) (ext : bool) (us : list usage)
    (g : rng) : result CryptoKey * rng :=
  if negb (usages_within [Encrypt; Decrypt; WrapKey; UnwrapKey] us)
  then (Throw SyntaxError, g)
  else if negb ((length =? 128) || (length =? 192) || (length =? 256))
  then (Throw OperationError, g)
  else
    match us with
    | [] => (Throw SyntaxError, g)
    | _ :: _ =>
        let (raw, g') := random_bytes g (N.to_nat (length / 8)) in
        (Ok (mkKey Secret ext (AES_GCM length) us (Raw raw)), g')
    end.

Inductive key_format : Type := Spki | Pkcs8 | RawFormat.

(** [exportKey(format, key)] *)
Definition exportKey (format : key_format) (key : CryptoKey) : result bytes :=
  match key_algorithm key with
  | PBKDF2 => Throw NotSupportedError
  | RSA_OAEP _ =>
      if negb (extractable key) then Throw InvalidAccessError
      else
        match format, key_kind key, key_material key with
        | Spki, Public, RsaPublic pk => Ok (spki_encode pk)
        | Pkcs8, Private, RsaPrivate sk => Ok (pkcs8_encode sk)
        | RawFormat, _, _ => Throw NotSupportedError
        | _, _, _ => Throw InvalidAccessError
        end
  | AES_GCM _ =>
      if negb (extractable key) then Throw InvalidAccessError
      else
        match format, key_material key with
        | RawFormat, Raw b => Ok b
        | _, _ => Throw NotSupportedError
        end
  end.

(** [importKey('spki', data, { name: 'RSA-OAEP', hash }, ext, us)] *)
Definition importKey_spki (data : bytes) (hash : hash_name) (ext : bool)
    (us : list usage) : result CryptoKey :=
  if negb (usages_within [Encrypt; WrapKey] us) then Throw SyntaxError
  else
    match spki_decode data with
    | None => Throw DataError
    | Some pk => Ok (mkKey Public ext (RSA_OAEP hash) us (RsaPublic pk))
    end.

(** [importKey('pkcs8', data, { name: 'RSA-OAEP', hash }, ext, us)] *)
Definition importKey_pkcs8 (data : bytes) (hash : hash_name) (ext : bool)
    (us : list usage) : result CryptoKey :=
  if negb (usages_within [Decrypt; UnwrapKey] us) then Throw SyntaxError
  else
    match pkcs8_decode data with
    | None => Throw DataError
    | Some sk =>
        match us with
        | [] => Throw SyntaxError
        | _ :: _ => Ok (mkKey Private ext (RSA_OAEP hash) us (RsaPrivate sk))
        end
    end.

(** [importKey('raw', data, 'PBKDF2', ext, us)] *)
Definition importKey_raw_PBKDF2 (data : bytes) (ext : bool) (us : list usage)
  : result CryptoKey :=
  if negb (usages_within [DeriveKey; DeriveBits] us) then Throw SyntaxError
  else if ext then Throw SyntaxError
  else Ok (mkKey Secret false PBKDF2 us (Raw data)).

(** [importKey('raw', data, { name: 'AES-GCM' }, ext, us)]: the key
    length is that of the data. *)
Definition importKey_raw_AES_GCM (data : bytes) (ext : bool) (us : list usage)
  : result CryptoKey :=
  if negb (usages_within [Encrypt; Decrypt; WrapKey; UnwrapKey] us)
  then Throw SyntaxError
  else
    let bits := N.of_nat (length data) * 8 in
    if negb ((bits =? 128) || (bits =? 192) || (bits =? 256)) then Throw DataError
    else
      match us with
      | [] => Throw SyntaxError
      | _ :: _ => Ok (mkKey Secret ext (AES_GCM bits) us (Raw data))
      end.

(** [deriveKey({ name: 'PBKDF2', salt, iterations, hash: 'SHA-256' },
    baseKey, { name: 'AES-GCM', length }, ext, us)] *)
Definition deriveKey_PBKDF2 (salt : bytes) (iterations : N) (baseKey : CryptoKey)
    (length : N) (ext : bool) (us : list usage) : result CryptoKey :=
  if negb (is_PBKDF2 (key_algorithm baseKey))
  then Throw InvalidAccessError
  else if negb (has_usage DeriveKey (usages baseKey)) then Throw InvalidAccessError
  else if negb ((length =? 128) || (length =? 192) || (length =? 256))
  then Throw OperationError
  else
    match iterations, key_material baseKey with
    | Npos c, Raw password =>
        importKey_raw_AES_GCM
          (Pbkdf2.derive sha256 password salt c (N.to_nat (length / 8))) ext us
    | _, _ => Throw OperationError
    end.

(** [encrypt({ name: 'AES-GCM', iv }, key, data)] *)
Definition encrypt_AES_GCM (iv : bytes) (key : CryptoKey) (data : bytes)
  : result bytes :=
  if negb (is_AES_GCM (key_algorithm key))
  then Throw InvalidAccessError
  else if negb (has_usage Encrypt (usages key)) then Throw InvalidAccessError
  else
    match key_material key with
    | Raw k => Ok (aes_gcm_encrypt k iv data)
    | _ => Throw OperationError
    end.

(** [decrypt({ name: 'AES-GCM', iv }, key, data)] *)
Definition decrypt_AES_GCM (iv : bytes) (key : CryptoKey) (data : bytes)
  : result bytes :=
  if negb (is_AES_GCM (key_algorithm key))
  then Throw InvalidAccessError
  else if negb (has_usage Decrypt (usages key)) then Throw InvalidAccessError
  else
    match key_material key with
    | Raw k =>
        match aes_gcm_decrypt k iv data with
        | Some m => Ok m
        | None => Throw OperationError
        end
    | _ => Throw OperationError
    end.

(** [encrypt({ name: 'RSA-OAEP' }, key, data)] *)
Definition encrypt_RSA_OAEP (key : CryptoKey) (data : bytes) (g : rng)
  : result bytes * rng :=
  if negb (is_RSA_OAEP (key_algorithm key))
  then (Throw InvalidAccessError, g)
  else if negb (has_usage Encrypt (usages key)) then (Throw InvalidAccessError, g)
  else
    match key_kind key, key_material key with
    | Public, RsaPublic pk =>
        match rsa_oaep_encrypt pk data g with
        | (Some c, g') => (Ok c, g')
        | (None, g') => (Throw OperationError, g')
        end
    | _, _ => (Throw InvalidAccessError, g)
    end.

(** [decrypt({ name: 'RSA-OAEP' }, key, data)] *)
Definition decrypt_RSA_OAEP (key : CryptoKey) (data : bytes) : result bytes :=
  if negb (is_RSA_OAEP (key_algorithm key))
  then Throw InvalidAccessError
  else if negb (has_usage Decrypt (usages key)) then Throw InvalidAccessError
  else
    match key_kind key, key_material key with
    | Private, RsaPrivate sk =>
        match rsa_oaep_decrypt sk data with
        | Some m => Ok m
        | None => Throw OperationError
        end
    | _, _ => Throw InvalidAccessError
    end.

End WithPlatform.

End WebCrypto.

(* ===================================================================== *)
(** * [crypto.ts] *)

Module Crypto.

Import WebCrypto.

(** The value stored by [storePrivateKey]: [{ encrypted, salt, iv }]. *)
Record vault_record : Type := mkRecord {
  encrypted : bytes;
  salt : bytes;
  iv : bytes
}.

(** The value [encryptMessage] resolves to. *)
Record envelope : Type := mkEnvelope {
  ciphertext : jsstring;
  encryptedKeys : list (jsstring * jsstring);
  env_iv : jsstring
}.

Section WithPlatform.

Context {P : Platform}.

(** What an asynchronous function can touch: the random source and the
    object store [keypairs] of the database [vaultchat-keys], which maps a
    key to the value stored under it. *)
Record world : Type := mkWorld {
  w_rng : rng;
  w_store : gmap jsstring vault_record
}.

(** A promise: it settles with a value or a rejection and leaves a world. *)
Definition M (A : Type) : Type := world -> result A * world.

Definition ret {A} (a : A) : M A := fun w => (Ok a, w).
Definition throw {A} (e : error) : M A := fun w => (Throw e, w).
Definition bind {A B} (m : M A) (k : A -> M B) : M B :=
  fun w => match m w with
           | (Ok a, w') => k a w'
           | (Throw e, w') => (Throw e, w')
           end.
Definition lift {A} (r : result A) : M A := fun w => (r, w).
Definition with_rng {A} (f : rng -> result A * rng) : M A :=
  fun w => let (r, g) := f (w_rng w) in (r, mkWorld g (w_store w)).

Notation "'await' x <- m ; k" := (bind m (fun x => k))
  (at level 10, x name, m at level 100, k at level 200).

(** [crypto.getRandomValues(new Uint8Array(n))] *)
Definition getRandomValues (n : nat) : M bytes :=
  with_rng (fun g => let (b, g') := random_bytes g n in (Ok b, g')).

(** [openDB] and the transaction are folded into the two accesses below:
    the store exists once the database has been opened, and a failure of
    the storage itself is not modelled. *)

(** [tx.objectStore(STORE_NAME).put(value, key)] *)
Definition store_put (value : vault_record) (key : jsstring) : M unit :=
  fun w => (Ok tt, mkWorld (w_rng w) (<[key := value]> (w_store w))).

(** [tx.objectStore(STORE_NAME).get(key)]; [None] is [undefined]. *)
Definition store_get (key : jsstring) : M (option vault_record) :=
  fun w => (Ok (w_store w !! key), w).

(** [btoa(String.fromCharCode(...new Uint8Array(buf)))] *)
Definition to_base64 (buf : bytes) : result jsstring :=
  Base64.btoa (fromCharCodes buf).

(** [Uint8Array.from(atob(s), c => c.charCodeAt(0))] *)
Definition from_base64 (s : jsstring) : result bytes :=
  match Base64.atob s with
  | Ok bin => Ok (charCodes bin)
  | Throw e => Throw e
  end.

Definition generateKeyPair : M CryptoKeyPair :=
  with_rng (generateKey_RSA_OAEP 2048 [x01; x00; x01] SHA_256 true
              [Encrypt; Decrypt]).

Definition exportPublicKey (key : CryptoKey) : M jsstring :=
  await exported <- lift (exportKey Spki key) ;
  lift (to_base64 exported).

Definition importPublicKey (base64 : jsstring) : M CryptoKey :=
  await binary <- lift (Base64.atob base64) ;
  let bytes := charCodes binary in
  lift (importKey_spki bytes SHA_256 false [Encrypt]).

Definition encryptPrivateKey (privateKey : CryptoKey) (password : jsstring)
  : M vault_record :=
  await salt <- getRandomValues 16 ;
  await iv <- getRandomValues 12 ;
  await keyMaterial <- lift (importKey_raw_PBKDF2 (Utf8.encode password) false [DeriveKey]) ;
  await derivedKey <- lift (deriveKey_PBKDF2 salt 100000 keyMaterial 256 false [Encrypt]) ;
  await exported <- lift (exportKey Pkcs8 privateKey) ;
  await encrypted <- lift (encrypt_AES_GCM iv derivedKey exported) ;
  ret (mkRecord encrypted salt iv).

Definition decryptPrivateKey (encrypted salt iv : bytes) (password : jsstring)
  : M CryptoKey :=
  await keyMaterial <- lift (importKey_raw_PBKDF2 (Utf8.encode password) false [DeriveKey]) ;
  await derivedKey <- lift (deriveKey_PBKDF2 salt 100000 keyMaterial 256 false [Decrypt]) ;
  await decrypted <- lift (decrypt_AES_GCM iv derivedKey encrypted) ;
  lift (importKey_pkcs8 decrypted SHA_256 false [Decrypt]).

Definition storePrivateKey (userId : jsstring) (privateKey : CryptoKey)
    (password : jsstring) : M unit :=
  await r <- encryptPrivateKey privateKey password ;
  store_put (mkRecord (encrypted r) (salt r) (iv r)) userId.

(** [None] is the [null] returned when nothing is stored. *)
Definition retrievePrivateKey (userId password : jsstring)
  : M (option CryptoKey) :=
  await data <- store_get userId ;
  match data with
  | None => ret None
  | Some d =>
      await k <- decryptPrivateKey (encrypted d) (salt d) (iv d) password ;
      ret (Some k)
  end.

Definition hasPrivateKey (userId : jsstring) : M bool :=
  await data <- store_get userId ;
  ret (match data with Some _ => true | None => false end).

(** The loop of [encryptMessage] over [Object.entries(publicKeys)]. *)
Fixpoint wrap_for_entries (entries : list (jsstring * CryptoKey))
    (exportedAesKey : bytes) (encryptedKeys : list (jsstring * jsstring))
  : M (list (jsstring * jsstring)) :=
  match entries with
  | [] => ret encryptedKeys
  | (id, key) :: rest =>
      await encryptedKeyBuf <- with_rng (encrypt_RSA_OAEP key exportedAesKey) ;
      await b64 <- lift (to_base64 encryptedKeyBuf) ;
      wrap_for_entries rest exportedAesKey (Js.obj_assign encryptedKeys id b64)
  end.

Definition encryptMessage (plaintext : jsstring)
    (publicKeys : list (jsstring * CryptoKey)) : M envelope :=
  await aesKey <- with_rng (generateKey_AES_GCM 256 true [Encrypt]) ;
  await ivArr <- getRandomValues 12 ;
  let encoded := Utf8.encode plaintext in
  await ciphertextBuf <- lift (encrypt_AES_GCM ivArr aesKey encoded) ;
  await exportedAesKey <- lift (exportKey RawFormat aesKey) ;
  await encryptedKeys <- wrap_for_entries (Js.own_properties publicKeys) exportedAesKey [] ;
  await ct <- lift (to_base64 ciphertextBuf) ;
  await ivs <- lift (to_base64 ivArr) ;
  ret (mkEnvelope ct encryptedKeys ivs).

(** [try { ... } catch { ... }] around a computation that touches nothing. *)
Definition try_catch {A} (body : result A) (handler : A) : A :=
  match body with
  | Ok a => a
  | Throw _ => handler
  end.

(** Step 1 of [decryptMessage]: the value left in [encryptedKeyB64]. *)
Definition resolve_key (encryptedKeyData myUserId : jsstring) : JsValue.jsvalue :=
  try_catch
    (match Js.JSON_parse encryptedKeyData with
     | None => Throw SyntaxError
     | Some parsedKeys =>
         match JsValue.get builtins parsedKeys myUserId with
         | Throw e => Throw e
         | Ok own =>
             if JsValue.truthy builtins own then Ok own
             else Ok (JsValue.first_value parsedKeys)
         end
     end)
    (JsValue.VJson (Js.JStr encryptedKeyData)).

(** Steps 2 to 4 of [decryptMessage]. *)
Definition decrypt_with (ciphertext encryptedKeyB64 iv : jsstring)
    (privateKey : CryptoKey) : M jsstring :=
  await ciphertextBuf <- lift (from_base64 ciphertext) ;
  await encryptedKeyBuf <- lift (from_base64 encryptedKeyB64) ;
  await ivBuf <- lift (from_base64 iv) ;
  await aesKeyBuf <- lift (decrypt_RSA_OAEP privateKey encryptedKeyBuf) ;
  await aesKey <- lift (importKey_raw_AES_GCM aesKeyBuf false [Decrypt]) ;
  await decrypted <- lift (decrypt_AES_GCM ivBuf aesKey ciphertextBuf) ;
  ret (Utf8.decode decrypted).

Definition decryptMessage (ciphertext encryptedKeyData iv : jsstring)
    (privateKey : CryptoKey) (myUserId : jsstring) : M jsstring :=
  let encryptedKeyB64 := resolve_key encryptedKeyData myUserId in
  decrypt_with ciphertext (JsValue.to_string builtins encryptedKeyB64) iv privateKey.

(** The caller's use of the envelope when it stores a message:
    [encrypted_key: JSON.stringify(encrypted.encryptedKeys)]. *)
Definition encrypted_key_field (e : envelope) : jsstring :=
  Js.JSON_stringify (encryptedKeys e).

End WithPlatform.

End Crypto.

(* ===================================================================== *)
(** * Strings: [trim], comparison and sorting *)

Module JsString.

(** The code points of WhiteSpace and LineTerminator: TAB, VT, FF, the
    space separators of Unicode, U+FEFF, LF, CR, LS and PS.  They all are
    single code units. *)
Definition is_white_space (c : N) : bool :=
  (c =? 0x09) || (c =? 0x0A) || (c =? 0x0B) || (c =? 0x0C) || (c =? 0x0D)
  || (c =? 0x20) || (c =? 0xA0) || (c =? 0x1680)
  || ((0x2000 <=? c) && (c <=? 0x200A))
  || (c =? 0x2028) || (c =? 0x2029) || (c =? 0x202F) || (c =? 0x205F)
  || (c =? 0x3000) || (c =? 0xFEFF).

Fixpoint trim_start (s : jsstring) : jsstring :=
  match s with
  | c :: s' => if is_white_space c then trim_start s' else s
  | [] => []
  end.

Fixpoint trim_end (s : jsstring) : jsstring :=
  match s with
  | [] => []
  | c :: s' =>
      match trim_end s' with
      | [] => if is_white_space c then [] else [c]
      | t => c :: t
      end
  end.

(** [s.trim()] *)
Definition trim (s : jsstring) : jsstring := trim_end (trim_start s).

(** [a < b] on strings: code unit by code unit, a proper prefix first. *)
Fixpoint str_ltb (a b : jsstring) : bool :=
  match a, b with
  | _, [] => false
  | [], _ :: _ => true
  | x :: a', y :: b' =>
      if x <? y then true else if y <? x then false else str_ltb a' b'
  end.

(** [[a, b].sort()] with the default comparison. *)
Definition sort_pair (a b : jsstring) : list jsstring :=
  if str_ltb b a then [b; a] else [a; b].

End JsString.

(* ===================================================================== *)
(** * The chat page (component [Chat]) *)

Module Chat.

Import WebCrypto Crypto JsString.

(** A row of the table [messages]. *)
Record message_row : Type := mkRow {
  row_id : jsstring;
  row_sender_id : jsstring;
  row_receiver_id : jsstring;
  row_ciphertext : jsstring;
  row_encrypted_key : jsstring;
  row_iv : jsstring;
  row_read_at : option jsstring;
  row_created_at : jsstring
}.

(** The object given to [insert] by [sendMessage]. *)
Record new_message : Type := mkNew {
  new_sender_id : jsstring;
  new_receiver_id : jsstring;
  new_ciphertext : jsstring;
  new_encrypted_key : jsstring;
  new_iv : jsstring
}.


(** [DecryptedMessage] *)
Record DecryptedMessage : Type := mkMessage {
  msg_id : jsstring;
  msg_sender_id : jsstring;
  msg_text : jsstring;
  msg_created_at : jsstring;
  msg_read_at : option jsstring
}.

(** A profile as the queries of [init] return it: [None] is a missing
    profile, [Some None] a profile whose [public_key] is null. *)
Definition profile : Type := option (option jsstring).

(** [profile?.public_key] when it is truthy. *)
Definition public_key_of (p : profile) : option jsstring :=
  match p with
  | Some (Some k) => if bool_decide (k = []) then None else Some k
  | _ => None
  end.

(** The lock sign U+1F512 and the two texts shown in place of a message. *)
Definition lock_sign : jsstring := [0xD83D; 0xDD12].
Definition unable_to_decrypt : jsstring := lock_sign ++ lit " Unable to decrypt".
Definition encrypted_message : jsstring := lock_sign ++ lit " Encrypted message".

Definition decrypted_message (msg : message_row) (text : jsstring)
  : DecryptedMessage :=
  mkMessage (row_id msg) (row_sender_id msg) text (row_created_at msg)
    (row_read_at msg).

(** [prev => prev.find(m => m.id === msg.id) ? prev : [...prev, entry]] *)
Definition add_message (entry : DecryptedMessage) (prev : list DecryptedMessage)
  : list DecryptedMessage :=
  if existsb (fun m => Js.str_eqb (msg_id m) (msg_id entry)) prev then prev
  else prev ++ [entry].

(** [[user.id, friendId].sort().join('-')] *)
Definition roomId (userId friendId : jsstring) : jsstring :=
  Js.join_with 45 (sort_pair userId friendId).

Definition channel_name (userId friendId : jsstring) : jsstring :=
  lit "chat:" ++ roomId userId friendId.

(** The handler of an UPDATE of the table. *)
Definition on_update (updatedMsg : message_row) (prev : list DecryptedMessage)
  : list DecryptedMessage :=
  List.map (fun m =>
              if Js.str_eqb (msg_id m) (row_id updatedMsg)
              then mkMessage (msg_id m) (msg_sender_id m) (msg_text m)
                     (msg_created_at m) (row_read_at updatedMsg)
              else m) prev.

Section WithPlatform.

Context {P : Platform}.

Notation "'await' x <- m ; k" := (bind m (fun x => k))
  (at level 10, x name, m at level 100, k at level 200).

(** [pubKeys[id] = key] for a [CryptoKey]: under the name [__proto__] the
    assignment sets the prototype and defines no property. *)
Definition assign_key (o : list (jsstring * CryptoKey)) (id : jsstring)
    (key : CryptoKey) : list (jsstring * CryptoKey) :=
  if Js.str_eqb id Js.proto_name then o else Js.obj_set o id key.

(** [try { ... } catch { ... }] around asynchronous calls. *)
Definition try_await {A} (body handler : M A) : M A :=
  fun w => match body w with
           | (Ok a, w') => (Ok a, w')
           | (Throw _, w') => handler w'
           end.

(** The handler of an INSERT into the table: the displayed list it leaves
    and the identifiers it passes to [markAsRead]. *)
Definition on_insert (friendId userId : jsstring) (privateKey : CryptoKey)
    (msg : message_row) (messages : list DecryptedMessage)
  : M (list DecryptedMessage * list jsstring) :=
  let isFromFriend :=
    Js.str_eqb (row_sender_id msg) friendId
    && Js.str_eqb (row_receiver_id msg) userId in
  let isFromMe :=
    Js.str_eqb (row_sender_id msg) userId
    && Js.str_eqb (row_receiver_id msg) friendId in
  if negb isFromFriend && negb isFromMe then ret (messages, [])
  else
    try_await
      (await text <- decryptMessage (row_ciphertext msg) (row_encrypted_key msg)
                       (row_iv msg) privateKey userId ;
       ret (add_message (decrypted_message msg text) messages,
            if Js.str_eqb (row_sender_id msg) friendId then [row_id msg] else []))
      (ret (add_message (decrypted_message msg encrypted_message) messages, [])).

(** The loop of [loadMessages]. *)
Fixpoint loadMessages_loop (pk : CryptoKey) (userId : jsstring)
    (data : list message_row) (decrypted : list DecryptedMessage)
  : M (list DecryptedMessage) :=
  match data with
  | [] => ret decrypted
  | msg :: rest =>
      await entry <-
        try_await
          (await text <- decryptMessage (row_ciphertext msg) (row_encrypted_key msg)
                           (row_iv msg) pk userId ;
           ret (decrypted_message msg text))
          (ret (decrypted_message msg unable_to_decrypt)) ;
      loadMessages_loop pk userId rest (decrypted ++ [entry])
  end.

(** [data] is what the query returned, [None] for null; the result is the
    list given to [setMessages], [None] when it is not called. *)
Definition loadMessages (pk : CryptoKey) (userId : jsstring)
    (data : option (list message_row)) : M (option (list DecryptedMessage)) :=
  match data with
  | None => ret None
  | Some rows =>
      await decrypted <- loadMessages_loop pk userId rows [] ;
      ret (Some decrypted)
  end.

Inductive toast : Type :=
  | CouldNotDecryptKeys   (* Could not decrypt your keys. Please log in again. *)
  | SessionExpired.       (* Session expired. Please log in again. *)

(** What [init] leaves: the private key of the page, the list given to
    [setMessages] when it was called, and the error shown. *)
Record init_state : Type := mkInit {
  init_privateKey : option CryptoKey;
  init_messages : option (list DecryptedMessage);
  init_toast : option toast
}.

(** The part of [init] after the profiles are loaded; [password] is
    [sessionStorage.getItem('_kp')]. *)
Definition init (password : option jsstring) (userId : jsstring)
    (data : option (list message_row)) : M init_state :=
  match password with
  | None | Some [] => ret (mkInit None None (Some SessionExpired))
  | Some password =>
      try_await
        (await pk <- retrievePrivateKey userId password ;
         match pk with
         | None => ret (mkInit None None None)
         | Some key =>
             try_await
               (await shown <- loadMessages key userId data ;
                ret (mkInit pk shown None))
               (ret (mkInit pk None (Some CouldNotDecryptKeys)))
         end)
        (ret (mkInit None None (Some CouldNotDecryptKeys)))
  end.

Inductive send_outcome : Type :=
  | NotSent                       (* nothing to send, or a send is under way *)
  | NoEncryption                  (* This user hasn't set up encryption yet. *)
  | SendFailed                    (* Failed to send message *)
  | Inserted (row : new_message). (* the object given to [insert] *)

(** [sendMessage] up to the call of [insert]. *)
Definition sendMessage (newMessage : jsstring) (sending : bool)
    (friendProfile myProfile : profile) (friendId userId : jsstring)
  : M send_outcome :=
  if bool_decide (trim newMessage = []) || sending then ret NotSent
  else
    match public_key_of friendProfile with
    | None => ret NoEncryption
    | Some friend_key =>
        try_await
          (await rKey <- importPublicKey friend_key ;
           let pubKeys := assign_key [] friendId rKey in
           await pubKeys <-
             match public_key_of myProfile with
             | Some my_key =>
                 await sKey <- importPublicKey my_key ;
                 ret (assign_key pubKeys userId sKey)
             | None => ret pubKeys
             end ;
           await encrypted <- encryptMessage (trim newMessage) pubKeys ;
           ret (Inserted (mkNew userId friendId (ciphertext encrypted)
                            (encrypted_key_field encrypted) (env_iv encrypted))))
          (ret SendFailed)
    end.

End WithPlatform.

End Chat.

(* ===================================================================== *)
(** * The sign-up form (component [Auth]) *)

Module Auth.

Import WebCrypto Crypto.

(** What [supabase.auth.signUp] resolved to. *)
Inductive signUp_result : Type :=
  | SignUpError                 (* [error] is set *)
  | NoUser                      (* [data.user] is null *)
  | User (id : jsstring).

Inductive signup_outcome : Type :=
  | Ignored                     (* a field is empty: nothing happens *)
  | UsernameTooShort
  | PasswordTooShort
  | SignupFailed                (* the [catch] branch *)
  | AccountCreated (userId publicKeyStr : jsstring).
      (* the profile of [userId] takes [publicKeyStr] as its [public_key] *)

Section WithPlatform.

Context {P : Platform}.

Notation "'await' x <- m ; k" := (bind m (fun x => k))
  (at level 10, x name, m at level 100, k at level 200).

Definition is_empty (s : jsstring) : bool := bool_decide (s = []).

(** [handleSignup]; the key pair is generated and the public key exported
    before [signUp] is called, and every exception ends in the [catch]
    branch. *)
Definition handleSignup (email username password : jsstring)
    (signUp : signUp_result) : M signup_outcome :=
  if is_empty email || is_empty username || is_empty password then ret Ignored
  else if (length username <? 3)%nat then ret UsernameTooShort
  else if (length password <? 6)%nat then ret PasswordTooShort
  else
    Chat.try_await
      (await keyPair <- generateKeyPair ;
       await publicKeyStr <- exportPublicKey (publicKey keyPair) ;
       match signUp with
       | SignUpError => ret SignupFailed
       | NoUser => ret SignupFailed
       | User id =>
           await stored <- storePrivateKey id (privateKey keyPair) password ;
           ret (AccountCreated id publicKeyStr)
       end)
      (ret SignupFailed).

End WithPlatform.

End Auth.

(* ===================================================================== *)
(** * A small platform on which everything computes *)

Module Toy.

Import Js JsValue.

Definition checksum (b : bytes) : byte :=
  fold_right Pbkdf2.xor_byte x00 b.

Definition bytes_eqb (a b : bytes) : bool :=
  bool_decide (fromCharCodes a = fromCharCodes b).

(** The random source is a counter. *)
Definition toy_random (g : N) (n : nat) : bytes * N :=
  (List.map (fun i => byte_of_N (7 * g + 13 * N.of_nat i + 1)) (seq 0 n),
   g + N.of_nat n).

(** A key pair is four random bytes, the same on both sides. *)
Definition toy_generate (bits : N) (e : bytes) (g : N)
  : option (bytes * bytes) * N :=
  let (k, g') := toy_random g 4 in (Some (k, k), g').

(** Key, one random byte, the message and a checksum of the message. *)
Definition toy_rsa_encrypt (pk m : bytes) (g : N) : option bytes * N :=
  if (190 <? length m)%nat then (None, g)
  else let (r, g') := toy_random g 1 in
       (Some (pk ++ r ++ m ++ [checksum m]), g').

Definition toy_rsa_decrypt (sk c : bytes) : option bytes :=
  let body := skipn (length sk + 1) c in
  let m := removelast body in
  if bytes_eqb (firstn (length sk) c) sk
     && (length sk + 2 <=? length c)%nat
     && bytes_eqb (skipn (length m) body) [checksum m]
  then Some m else None.

Definition toy_spki_encode (pk : bytes) : bytes := x30 :: pk.
Definition toy_spki_decode (b : bytes) : option bytes :=
  match b with
  | t :: r => if bytes_eqb [t] [x30] then Some r else None
  | [] => None
  end.

Definition toy_pkcs8_encode (sk : bytes) : bytes := x31 :: sk.
Definition toy_pkcs8_decode (b : bytes) : option bytes :=
  match b with
  | t :: r => if bytes_eqb [t] [x31] then Some r else None
  | [] => None
  end.

(** The data followed by sixteen bytes that depend on key, iv and data. *)
Definition toy_tag (k iv m : bytes) : bytes :=
  checksum (k ++ iv ++ m) :: firstn 15 (k ++ iv ++ repeat x00 15).

Definition toy_gcm_encrypt (k iv m : bytes) : bytes := m ++ toy_tag k iv m.

Definition toy_gcm_decrypt (k iv c : bytes) : option bytes :=
  let m := firstn (length c - 16) c in
  if bytes_eqb c (toy_gcm_encrypt k iv m) then Some m else None.

(** Thirty-two bytes made of the checksum and the length of the input. *)
Definition toy_hash (b : bytes) : bytes :=
  List.map (fun i => byte_of_N (Byte.to_N (checksum b) + N.of_nat (length b) * N.of_nat i))
    (seq 0 32).

(** The members of [Object.prototype], which every kind of value inherits,
    and those of [Number.prototype], [Boolean.prototype],
    [String.prototype] and [Array.prototype] that ECMAScript 5 names. *)
Definition object_prototype_functions : list string :=
  ["constructor"; "hasOwnProperty"; "isPrototypeOf"; "propertyIsEnumerable";
   "toLocaleString"; "toString"; "valueOf"; "__defineGetter__";
   "__defineSetter__"; "__lookupGetter__"; "__lookupSetter__"]%string.

Definition prototype_functions (k : kind) : list string :=
  match k with
  | KObject => []
  | KBoolean => []
  | KNumber => ["toExponential"; "toFixed"; "toPrecision"]
  | KString =>
      ["charAt"; "charCodeAt"; "concat"; "indexOf"; "lastIndexOf";
       "localeCompare"; "match"; "replace"; "search"; "slice"; "split";
       "substr"; "substring"; "toLowerCase"; "toLocaleLowerCase";
       "toUpperCase"; "toLocaleUpperCase"; "trim"]
  | KArray =>
      ["concat"; "join"; "pop"; "push"; "reverse"; "shift"; "slice"; "sort";
       "splice"; "unshift"; "indexOf"; "lastIndexOf"; "every"; "some";
       "forEach"; "map"; "filter"; "reduce"; "reduceRight"]
  end%string.

(** [String(f)] for a built-in function [f]. *)
Definition native_function_text (name : jsstring) : jsstring :=
  lit "function " ++ name ++ lit "() { [native code] }".

(** [String(v.__proto__)] *)
Definition prototype_text (k : kind) : jsstring :=
  match k with
  | KObject => lit "[object Object]"
  | KArray => []
  | KString => []
  | KNumber => lit "0"
  | KBoolean => lit "false"
  end.

Definition toy_inherited (k : kind) (name : jsstring) : option jsstring :=
  if str_eqb name proto_name then Some (prototype_text k)
  else if existsb (fun n => str_eqb (lit n) name)
            (prototype_functions k ++ object_prototype_functions)
  then Some (native_function_text name)
  else None.

(** A number is zero when its digits before the exponent all are. *)
Fixpoint mantissa_is_zero (t : jsstring) : bool :=
  match t with
  | [] => true
  | c :: t' =>
      if (c =? 101) || (c =? 69) then true
      else if is_digit c && negb (c =? 48) then false
      else mantissa_is_zero t'
  end.

Definition toy_realm : realm :=
  mkRealm toy_inherited mantissa_is_zero (fun t => t).

Definition platform : Platform :=
  mkPlatform N toy_random bytes bytes toy_generate toy_rsa_encrypt
    toy_rsa_decrypt toy_spki_encode toy_spki_decode toy_pkcs8_encode
    toy_pkcs8_decode toy_gcm_encrypt toy_gcm_decrypt toy_hash toy_realm.

End Toy.

(* ===================================================================== *)
(** * Vocabulary of the specification *)

Module Spec.

Import WebCrypto Crypto.


(** A property whose name and value are strings. *)
Definition valid_member (p : jsstring * jsstring) : Prop :=
  is_jsstring (fst p) = true /\ is_jsstring (snd p) = true.

(** What [JSON.parse] does with a member [name: "value"]. *)
Definition define_member (acc : list (jsstring * Js.json)) (p : jsstring * jsstring)
  : list (jsstring * Js.json) :=
  Js.obj_set acc (fst p) (Js.JStr (snd p)).

(** The base64 text of a buffer. *)
Definition b64 (b : bytes) : jsstring := Base64.b64_encode (fromCharCodes b).



(** The characters of a JSON number. *)
Definition number_char (c : N) : Prop :=
  Js.is_digit c = true \/ c = 45 \/ c = 46 \/ c = 101 \/ c = 69 \/ c = 43.


Section WithPlatform.

Context {P : Platform}.

(** [sk] decrypts whatever [pk] encrypts. *)
Definition rsa_matching (pk : rsa_public) (sk : rsa_private) : Prop :=
  forall m g c g',
    rsa_oaep_encrypt pk m g = (Some c, g') -> rsa_oaep_decrypt sk c = Some m.

(** [pk] is large enough for the 32 bytes of an AES-256 key. *)
Definition wraps_content_key (pk : rsa_public) : Prop :=
  forall m g, length m = 32%nat -> fst (rsa_oaep_encrypt pk m g) <> None.

(** A public key as [importPublicKey] and [generateKeyPair] make them. *)
Definition encryption_key (k : CryptoKey) (pk : rsa_public) : Prop :=
  key_kind k = Public /\ is_RSA_OAEP (key_algorithm k) = true
  /\ has_usage Encrypt (usages k) = true /\ key_material k = RsaPublic pk.

(** A private key as [retrievePrivateKey] and [generateKeyPair] make them. *)
Definition decryption_key (k : CryptoKey) (sk : rsa_private) : Prop :=
  key_kind k = Private /\ is_RSA_OAEP (key_algorithm k) = true
  /\ has_usage Decrypt (usages k) = true /\ key_material k = RsaPrivate sk.

(** A private key that [exportKey] can serialise, as [generateKeyPair]
    returns it. *)
Definition extractable_private_key (k : CryptoKey) (sk : rsa_private) : Prop :=
  key_kind k = Private /\ is_RSA_OAEP (key_algorithm k) = true
  /\ extractable k = true /\ key_material k = RsaPrivate sk.

(** A public key that [exportKey] can serialise. *)
Definition extractable_public_key (k : CryptoKey) (pk : rsa_public) : Prop :=
  key_kind k = Public /\ is_RSA_OAEP (key_algorithm k) = true
  /\ extractable k = true /\ key_material k = RsaPublic pk.

(** The key [deriveKey] computes from a password and a stored salt. *)
Definition derived_key (password : jsstring) (salt : bytes) : bytes :=
  Pbkdf2.derive sha256 (Utf8.encode password) salt 100000 32.

(** The private key [decryptPrivateKey] imports. *)
Definition unlocked_key (sk : rsa_private) : CryptoKey :=
  mkKey Private false (RSA_OAEP SHA_256) [Decrypt] (RsaPrivate sk).

(** The public key [importPublicKey] imports. *)
Definition imported_key (pk : rsa_public) : CryptoKey :=
  mkKey Public false (RSA_OAEP SHA_256) [Encrypt] (RsaPublic pk).

(** A recipient's public key with its matching private key. *)
Definition key_pair (pub priv : CryptoKey) : Prop :=
  exists pk sk,
    encryption_key pub pk /\ decryption_key priv sk
    /\ rsa_matching pk sk /\ wraps_content_key pk.




End WithPlatform.

(** What is assumed of the platform: the size of what the random source
    returns, and functional correctness of the cryptographic cores. *)
Record PlatformLaws (P : Platform) : Prop := mkLaws {
  random_bytes_length :
    forall g n, length (fst (random_bytes g n)) = n;
  rsa_generate_matching :
    forall bits e g pk sk g',
      rsa_generate bits e g = (Some (pk, sk), g') -> rsa_matching pk sk;
  rsa_generate_2048_wraps :
    forall e g pk sk g',
      rsa_generate 2048 e g = (Some (pk, sk), g') -> wraps_content_key pk;
  rsa_ciphertext_nonempty :
    forall pk m g c g', rsa_oaep_encrypt pk m g = (Some c, g') -> c <> [];
  spki_decode_encode :
    forall pk, spki_decode (spki_encode pk) = Some pk;
  pkcs8_decode_encode :
    forall sk, pkcs8_decode (pkcs8_encode sk) = Some sk;
  aes_gcm_decrypt_encrypt :
    forall k iv m, aes_gcm_decrypt k iv (aes_gcm_encrypt k iv m) = Some m;
  sha256_length :
    forall b, length (sha256 b) = 32%nat;
  (** what an ordinary object inherits are functions and the prototype
      object itself, whose texts are not base64 *)
  inherited_not_base64 :
    forall name text,
      JsValue.inherited builtins JsValue.KObject name = Some text ->
      Base64.atob text = Throw InvalidCharacterError
}.

End Spec.

(* ===================================================================== *)
(** * Vocabulary of the properties of the callers *)

Module Notions.

Import WebCrypto Crypto.




(** The names of the own properties of an object. *)
Definition names {V} (o : list (jsstring * V)) : list jsstring := List.map fst o.

Section WithPlatform.

Context {P : Platform}.

(** A key that [encrypt] accepts for RSA-OAEP. *)
Definition can_encrypt (k : CryptoKey) : Prop :=
  key_kind k = Public /\ is_RSA_OAEP (key_algorithm k) = true
  /\ has_usage Encrypt (usages k) = true.

(** A key that [decrypt] accepts for RSA-OAEP. *)
Definition can_decrypt (k : CryptoKey) : Prop :=
  key_kind k = Private /\ is_RSA_OAEP (key_algorithm k) = true
  /\ has_usage Decrypt (usages k) = true.

(** An asynchronous call that leaves the key store as it found it, however
    it settles. *)
Definition keeps_store {A} (m : M A) : Prop :=
  forall w, w_store (snd (m w)) = w_store w.

(** The text shown for a row of the table: what [decryptMessage] returns
    for it, or [fallback] when it throws. *)
Definition text_or (fallback : jsstring) (key : CryptoKey) (userId : jsstring)
    (msg : Chat.message_row) (w : world) : jsstring :=
  match fst (decryptMessage (Chat.row_ciphertext msg) (Chat.row_encrypted_key msg)
               (Chat.row_iv msg) key userId w) with
  | Ok text => text
  | Throw _ => fallback
  end.

End WithPlatform.

End Notions.

(* ===================================================================== *)
(** * Concrete inputs on the small platform *)

Module Example.

Import WebCrypto Crypto.

#[local] Existing Instance Toy.platform.

Definition alice : jsstring := lit "alice".
Definition bob : jsstring := lit "bob".
Definition carol : jsstring := lit "carol".

Definition alice_material : bytes := [x01; x02; x03; x04].
Definition bob_material : bytes := [x05; x06; x07; x08].

Definition alice_public : CryptoKey := Spec.imported_key alice_material.
Definition alice_private : CryptoKey := Spec.unlocked_key alice_material.
Definition bob_public : CryptoKey := Spec.imported_key bob_material.

(** A key pair as [generateKeyPair] returns it: both halves extractable. *)
Definition alice_generated_public : CryptoKey :=
  mkKey Public true (RSA_OAEP SHA_256) [Encrypt] (RsaPublic alice_material).
Definition alice_generated_private : CryptoKey :=
  mkKey Private true (RSA_OAEP SHA_256) [Decrypt] (RsaPrivate alice_material).

Definition publicKeys : list (jsstring * CryptoKey) :=
  [(alice, alice_public); (bob, bob_public)].

Definition w0 : world := mkWorld (5 : N) ∅.

Definition hello : jsstring := lit "hello".
Definition password : jsstring := lit "secret".

(** The random values [encryptMessage] draws in [w0]. *)
Definition content_key : bytes := fst (Toy.toy_random 5 32).

Definition no_envelope : envelope := mkEnvelope [] [] [].

(** [encryptMessage("hello", publicKeys)] in [w0]. *)
Definition hello_envelope : envelope :=
  Eval vm_compute in
    match fst (encryptMessage hello publicKeys w0) with
    | Ok e => e
    | Throw _ => no_envelope
    end.

Definition hello_key_field : jsstring :=
  Eval vm_compute in encrypted_key_field hello_envelope.

(** The object [JSON.parse] makes of the stored key field. *)
Definition hello_properties : list (jsstring * Js.json) :=
  Eval vm_compute in
    match Js.JSON_parse hello_key_field with
    | Some (Js.JObj props) => props
    | _ => []
    end.

(** The content key wrapped for alice, as bytes and as text. *)
Definition alice_wrapped : bytes :=
  Eval vm_compute in
    match fst (Toy.toy_rsa_encrypt alice_material content_key 49) with
    | Some c => c
    | None => []
    end.
Definition alice_wrapped_text : jsstring :=
  Eval vm_compute in Spec.b64 alice_wrapped.



(** The message that is only the first half of a surrogate pair. *)
Definition lone_surrogate_text : jsstring := [0xD83D].

(** An object whose one own property is named [__proto__]. *)
Definition proto_recipient : list (jsstring * CryptoKey) :=
  [(Js.proto_name, alice_public)].



(** The fields of the sign-up form, for alice and for bob. *)
Definition alice_email : jsstring := lit "alice@example.org".

(** The device of bob. *)
Definition v0 : world := mkWorld (9 : N) ∅.

(** The text of alice's public key, as [exportPublicKey] gives it. *)
Definition alice_key_text : jsstring :=
  Eval vm_compute in Spec.b64 (Toy.toy_spki_encode alice_material).

Definition bob_generated_public : CryptoKey :=
  mkKey Public true (RSA_OAEP SHA_256) [Encrypt] (RsaPublic bob_material).


End Example.

(* ===================================================================== *)
(** * Theorems *)

(* ===================================================================== *)
(** * Proofs: base64 *)

Module Base64Facts.

Import Base64.

Ltac Zify.zify_post_hook ::= Z.to_euclidean_division_equations.

Lemma byte_to_N_lt (b : byte) : Byte.to_N b < 256.
Proof. destruct b; vm_compute; reflexivity. Qed.

Lemma byte_of_to_N (b : byte) : byte_of_N (Byte.to_N b) = b.
Proof.
  unfold byte_of_N. rewrite N.mod_small by apply byte_to_N_lt.
  rewrite Byte.of_to_N. reflexivity.
Qed.


Lemma charCodes_fromCharCodes (b : bytes) : charCodes (fromCharCodes b) = b.
Proof.
  unfold charCodes, fromCharCodes. rewrite List.map_map.
  induction b as [|x b IH]; simpl; [reflexivity|].
  rewrite byte_of_to_N, IH. reflexivity.
Qed.

Lemma fromCharCodes_small (b : bytes) :
  forallb (fun c => c <? 256) (fromCharCodes b) = true.
Proof.
  induction b as [|x b IH]; simpl; [reflexivity|].
  rewrite IH, andb_true_r. apply N.ltb_lt, byte_to_N_lt.
Qed.

(** Induction over a list three elements at a time. *)
Lemma list_ind3 {A} (Q : list A -> Prop) :
  Q [] -> (forall a, Q [a]) -> (forall a b, Q [a; b]) ->
  (forall a b c l, Q l -> Q (a :: b :: c :: l)) ->
  forall l, Q l.
Proof.
  intros H0 H1 H2 H3.
  assert (forall l, Q l /\ (forall a, Q (a :: l)) /\ (forall a b, Q (a :: b :: l))) as H.
  { induction l as [|x l (Ha & Hb & Hc)]; [auto|].
    split; [apply Hb|]. split; [intros; apply Hc|].
    intros a b. apply H3. exact Ha. }
  intros l. apply H.
Qed.

Lemma b64_val_char (n : N) : n < 64 -> b64_val (b64_char n) = Some n.
Proof.
  intros Hn. unfold b64_char, b64_val.
  repeat match goal with
  | |- context [?a <? ?b] => destruct (N.ltb_spec a b)
  | |- context [?a =? ?b] => destruct (N.eqb_spec a b)
  | |- context [?a <=? ?b] => destruct (N.leb_spec a b)
  end; simpl; try (f_equal; lia); try lia.
Qed.

Ltac split_tests :=
  repeat (match goal with
          | |- context [?a <? ?b] => destruct (N.ltb_spec a b)
          | |- context [?a <=? ?b] => destruct (N.leb_spec a b)
          | |- context [?a =? ?b] => destruct (N.eqb_spec a b)
          end; cbv iota).

Lemma b64_char_not_eq_sign (n : N) : (b64_char n =? eq_sign) = false.
Proof.
  unfold b64_char, eq_sign.
  destruct (N.ltb_spec n 26); [|destruct (N.ltb_spec n 52);
    [|destruct (N.ltb_spec n 62); [|destruct (N.eqb_spec n 62)]]];
    apply N.eqb_neq; lia.
Qed.

Lemma b64_char_not_whitespace (n : N) : is_ascii_whitespace (b64_char n) = false.
Proof.
  unfold b64_char, is_ascii_whitespace.
  destruct (N.ltb_spec n 26); [|destruct (N.ltb_spec n 52);
    [|destruct (N.ltb_spec n 62); [|destruct (N.eqb_spec n 62)]]];
    rewrite !orb_false_iff; repeat split; apply N.eqb_neq; lia.
Qed.

Lemma b64_encode_split (l : list N) : b64_encode l = b64_body l ++ b64_pad l.
Proof.
  induction l as [| a | a b | a b c l IH] using list_ind3; try reflexivity.
  cbn [b64_encode b64_body b64_pad]. rewrite IH. reflexivity.
Qed.

Lemma b64_encode_no_whitespace (l : list N) :
  List.filter (fun c => negb (is_ascii_whitespace c)) (b64_encode l) = b64_encode l.
Proof.
  induction l as [| a | a b | a b c l IH] using list_ind3;
    cbn [b64_encode List.filter];
    rewrite ?b64_char_not_whitespace; cbn [negb]; try rewrite IH; reflexivity.
Qed.

Lemma b64_encode_length (l : list N) : (length (b64_encode l) mod 4 = 0)%nat.
Proof.
  induction l as [| a | a b | a b c l IH] using list_ind3; try reflexivity.
  cbn [b64_encode length].
  change (S (S (S (S (length (b64_encode l)))))) with (4 + length (b64_encode l))%nat.
  rewrite <- Nat.Div0.add_mod_idemp_l. exact IH.
Qed.

(** The body is empty or ends with a character of the alphabet. *)
Lemma b64_body_last (l : list N) :
  b64_body l = [] \/ exists r n, b64_body l = r ++ [b64_char n].
Proof.
  induction l as [| a | a b | a b c l IH] using list_ind3.
  - left; reflexivity.
  - right. exists [b64_char (a / 4)], ((a mod 4) * 16). reflexivity.
  - right. exists [b64_char (a / 4); b64_char ((a mod 4) * 16 + b / 16)],
      ((b mod 16) * 4). reflexivity.
  - right. cbn [b64_body]. destruct IH as [E | (r & n & E)]; rewrite E.
    + exists [b64_char (a / 4); b64_char ((a mod 4) * 16 + b / 16);
              b64_char ((b mod 16) * 4 + c / 64)], (c mod 64). reflexivity.
    + exists (b64_char (a / 4) :: b64_char ((a mod 4) * 16 + b / 16)
              :: b64_char ((b mod 16) * 4 + c / 64) :: b64_char (c mod 64) :: r), n.
      reflexivity.
Qed.

Lemma b64_pad_cases (l : list N) :
  b64_pad l = [] \/ b64_pad l = [eq_sign] \/ b64_pad l = [eq_sign; eq_sign].
Proof.
  induction l as [| a | a b | a b c l IH] using list_ind3; cbn [b64_pad]; auto.
Qed.

(** A padded body that is not empty ends with a character of the alphabet:
    padding only follows an incomplete group. *)
Lemma b64_pad_body (l : list N) : b64_pad l <> [] -> b64_body l <> [].
Proof.
  induction l as [| a | a b | a b c l IH] using list_ind3; cbn; congruence.
Qed.

Lemma strip_padding_encode (l : list N) : strip_padding (b64_encode l) = b64_body l.
Proof.
  unfold strip_padding. rewrite b64_encode_length. cbn [Nat.eqb].
  rewrite b64_encode_split.
  destruct (b64_body_last l) as [E | (r & n & E)].
  - destruct (b64_pad_cases l) as [Hp | Hp].
    + rewrite E, Hp. reflexivity.
    + exfalso. apply (b64_pad_body l); [|exact E].
      destruct Hp as [Hp | Hp]; rewrite Hp; discriminate.
  - rewrite E.
    destruct (b64_pad_cases l) as [Hp | [Hp | Hp]]; rewrite Hp.
    + rewrite app_nil_r, rev_app_distr. cbn [rev app].
      rewrite b64_char_not_eq_sign. reflexivity.
    + rewrite !rev_app_distr. cbn [rev app].
      rewrite N.eqb_refl, b64_char_not_eq_sign.
      cbn [rev]. rewrite rev_involutive. reflexivity.
    + rewrite !rev_app_distr. cbn [rev app].
      rewrite !N.eqb_refl. rewrite rev_involutive. reflexivity.
Qed.

Lemma b64_body_length (l : list N) : (length (b64_body l) mod 4 =? 1)%nat = false.
Proof.
  induction l as [| a | a b | a b c l IH] using list_ind3; try reflexivity.
  cbn [b64_body length].
  change (S (S (S (S (length (b64_body l)))))) with (4 + length (b64_body l))%nat.
  rewrite <- Nat.Div0.add_mod_idemp_l.
  change ((4 mod 4 + length (b64_body l)) mod 4)%nat with (length (b64_body l) mod 4)%nat.
  exact IH.
Qed.

Lemma b64_decode_body (l : list N) :
  Forall (fun c => c < 256) l ->
  exists vs, b64_vals (b64_body l) = Some vs /\ b64_decode_vals vs = l.
Proof.
  induction l as [| a | a b | a b c l IH] using list_ind3; intros Hl.
  - exists []. split; reflexivity.
  - inversion Hl as [|? ? Ha _]; subst.
    eexists. cbn [b64_body b64_vals].
    rewrite !b64_val_char by lia. split; [reflexivity|].
    cbn [b64_decode_vals]. f_equal. lia.
  - inversion Hl as [|? ? Ha Hl']; subst. inversion Hl' as [|? ? Hb _]; subst.
    eexists. cbn [b64_body b64_vals].
    rewrite !b64_val_char by lia. split; [reflexivity|].
    cbn [b64_decode_vals]. repeat f_equal; lia.
  - inversion Hl as [|? ? Ha Hl']; subst. inversion Hl' as [|? ? Hb Hl'']; subst.
    inversion Hl'' as [|? ? Hc Hl3]; subst.
    destruct (IH Hl3) as (vs & Hvs & Hdec).
    eexists. cbn [b64_body b64_vals]. rewrite Hvs.
    rewrite !b64_val_char by lia. split; [reflexivity|].
    cbn [b64_decode_vals]. rewrite Hdec. repeat f_equal; lia.
Qed.

(** [atob] inverts [btoa] on every string [btoa] accepts. *)
Lemma atob_b64_encode (l : list N) :
  Forall (fun c => c < 256) l -> atob (b64_encode l) = Ok l.
Proof.
  intros Hl. unfold atob.
  rewrite b64_encode_no_whitespace, strip_padding_encode, b64_body_length.
  destruct (b64_decode_body l Hl) as (vs & Hvs & Hdec).
  rewrite Hvs, Hdec. reflexivity.
Qed.

Lemma from_to_base64 (b : bytes) :
  exists s, Crypto.to_base64 b = Ok s /\ Crypto.from_base64 s = Ok b.
Proof.
  exists (b64_encode (fromCharCodes b)). unfold Crypto.to_base64, Crypto.from_base64, btoa.
  rewrite fromCharCodes_small. split; [reflexivity|].
  rewrite atob_b64_encode.
  - rewrite charCodes_fromCharCodes. reflexivity.
  - unfold fromCharCodes. induction b as [|x b IH]; constructor;
      [apply byte_to_N_lt | exact IH].
Qed.

End Base64Facts.
(* ===================================================================== *)
(** * Proofs: UTF-8 *)

Module Utf8Facts.

Import Utf8 Spec Base64Facts.

Ltac Zify.zify_post_hook ::= Z.to_euclidean_division_equations.

Ltac decide_tests :=
  repeat match goal with
  | |- context [?a <=? ?b] =>
      first [ replace (a <=? b) with true by (symmetry; apply N.leb_le; lia)
            | replace (a <=? b) with false by (symmetry; apply N.leb_gt; lia) ]
  | |- context [?a <? ?b] =>
      first [ replace (a <? b) with true by (symmetry; apply N.ltb_lt; lia)
            | replace (a <? b) with false by (symmetry; apply N.ltb_ge; lia) ]
  | |- context [?a =? ?b] =>
      first [ replace (a =? b) with true by (symmetry; apply N.eqb_eq; lia)
            | replace (a =? b) with false by (symmetry; apply N.eqb_neq; lia) ]
  end; cbn [andb orb negb].









Ltac split_surrogate c :=
  unfold is_high_surrogate, is_low_surrogate in *;
  destruct (N.leb_spec 0xD800 c); destruct (N.leb_spec c 0xDBFF);
  destruct (N.leb_spec 0xDC00 c); destruct (N.leb_spec c 0xDFFF);
  cbn [andb negb] in *; try lia.







End Utf8Facts.
(* ===================================================================== *)
(** * Proofs: JSON *)

Module JsonFacts.

Import Utf8 Js Spec Base64Facts Utf8Facts.

Ltac Zify.zify_post_hook ::= Z.to_euclidean_division_equations.

Lemma hex_val_char (v : N) : v < 16 -> hex_val (hex_char v) = Some v.
Proof.
  intros Hv. unfold hex_char, hex_val.
  destruct (N.ltb_spec v 10); decide_tests; f_equal; lia.
Qed.

Lemma hex4_escape (c : N) :
  c < 65536 ->
  hex4 (hex_char (c / 4096)) (hex_char ((c / 256) mod 16))
       (hex_char ((c / 16) mod 16)) (hex_char (c mod 16)) = Some c.
Proof.
  intros Hc. unfold hex4. rewrite !hex_val_char by lia. f_equal. lia.
Qed.

Lemma parse_unicode_escape (c : N) (rest : jsstring) :
  c < 65536 ->
  parse_string_body (unicode_escape c ++ rest)
  = match parse_string_body rest with
    | Some (t, r) => Some (c :: t, r)
    | None => None
    end.
Proof.
  intros Hc. unfold unicode_escape. cbn [app parse_string_body].
  cbn [N.eqb Pos.eqb N.ltb N.compare Pos.compare Pos.compare_cont].
  rewrite hex4_escape by exact Hc. reflexivity.
Qed.

Lemma parse_quote_unit (c : N) (rest : jsstring) :
  c < 65536 ->
  parse_string_body (quote_unit c ++ rest)
  = match parse_string_body rest with
    | Some (t, r) => Some (c :: t, r)
    | None => None
    end.
Proof.
  intros Hc. unfold quote_unit.
  destruct (N.eqb_spec c 8) as [->|]; [reflexivity|].
  destruct (N.eqb_spec c 9) as [->|]; [reflexivity|].
  destruct (N.eqb_spec c 10) as [->|]; [reflexivity|].
  destruct (N.eqb_spec c 12) as [->|]; [reflexivity|].
  destruct (N.eqb_spec c 13) as [->|]; [reflexivity|].
  destruct (N.eqb_spec c 34) as [->|]; [reflexivity|].
  destruct (N.eqb_spec c 92) as [->|]; [reflexivity|].
  destruct (N.ltb_spec c 32).
  - apply parse_unicode_escape. exact Hc.
  - cbn [app parse_string_body]. decide_tests. reflexivity.
Qed.

Lemma parse_quote_body (s rest : jsstring) :
  is_jsstring s = true ->
  parse_string_body (quote_body s ++ 34 :: rest) = Some (s, rest).
Proof.
  remember (length s) as n eqn:Hn.
  revert s Hn. induction n as [n IH] using lt_wf_ind. intros s Hn Hs.
  destruct s as [|c s']; [reflexivity|].
  cbn [is_jsstring forallb] in Hs. apply andb_true_iff in Hs as [Hc Hs'].
  unfold is_code_unit in Hc. apply N.ltb_lt in Hc.
  cbn [quote_body].
  assert (Hrec : parse_string_body (quote_body s' ++ 34 :: rest) = Some (s', rest)).
  { apply (IH (length s')); [subst n; cbn; lia | reflexivity | exact Hs']. }
  destruct (is_high_surrogate c) eqn:Hh.
  - destruct s' as [|d s''].
    + rewrite parse_unicode_escape by exact Hc. reflexivity.
    + destruct (is_low_surrogate d) eqn:Hl.
      * cbn [forallb] in Hs'. apply andb_true_iff in Hs' as [Hd Hs''].
        cbn [app parse_string_body].
        split_surrogate c; split_surrogate d. decide_tests.
        rewrite (IH (length s'')); [reflexivity | subst n; cbn; lia | reflexivity | exact Hs''].
      * rewrite <- app_assoc, parse_unicode_escape by exact Hc.
        rewrite Hrec. reflexivity.
  - destruct (is_low_surrogate c) eqn:Hl.
    + rewrite <- app_assoc, parse_unicode_escape by exact Hc.
      rewrite Hrec. reflexivity.
    + rewrite <- app_assoc, parse_quote_unit by exact Hc.
      rewrite Hrec. reflexivity.
Qed.

Lemma parse_value_quote (f : nat) (t : jsstring) :
  parse_value (S f) (34 :: t)
  = match parse_string_body t with
    | Some (s, r) => Some (JStr s, r)
    | None => None
    end.
Proof. reflexivity. Qed.

Lemma parse_member (f : nat) (p : jsstring * jsstring) (c : N)
    (tail : jsstring) (acc : list (jsstring * json)) :
  valid_member p -> c = 44 \/ c = 125 ->
  parse_members (S (S f)) (stringify_member p ++ c :: tail) acc
  = if c =? 44 then parse_members (S f) tail (define_member acc p)
    else Some (JObj (define_member acc p), tail).
Proof.
  intros [Hk Hv] Hc. destruct p as [k v]. cbn [fst snd] in *.
  unfold stringify_member, quote, define_member. cbn [fst snd].
  rewrite <- !app_assoc. cbn [app].
  change (parse_members (S (S f)) (34 :: ?t) acc) with
    (match parse_string_body t with
     | Some (k, r1) =>
         match skip_ws r1 with
         | c1 :: r2 =>
             if c1 =? 58 then
               match parse_value (S f) r2 with
               | Some (v, r3) =>
                   match skip_ws r3 with
                   | c3 :: r4 =>
                       if c3 =? 44 then parse_members (S f) r4 (obj_set acc k v)
                       else if c3 =? 125 then Some (JObj (obj_set acc k v), r4)
                       else None
                   | [] => None
                   end
               | None => None
               end
             else None
         | [] => None
         end
     | None => None
     end).
  rewrite <- !app_assoc. cbn [app].
  rewrite parse_quote_body by exact Hk.
  cbn [skip_ws is_json_whitespace N.eqb Pos.eqb orb].
  rewrite parse_value_quote, parse_quote_body by exact Hv.
  destruct Hc as [-> | ->]; reflexivity.
Qed.

Lemma parse_members_join (ms : list (jsstring * jsstring)) :
  forall (f : nat) (acc : list (jsstring * json)) (rest : jsstring),
  ms <> [] -> Forall valid_member ms -> (length ms < f)%nat ->
  parse_members f (join_with 44 (List.map stringify_member ms) ++ 125 :: rest) acc
  = Some (JObj (fold_left define_member ms acc), rest).
Proof.
  induction ms as [|p ms IH]; intros f acc rest Hne Hv Hf; [congruence|].
  inversion Hv as [|? ? Hp Hms]; subst.
  destruct f as [|[|f]]; cbn [length] in Hf; try lia.
  destruct ms as [|q ms].
  - cbn [List.map join_with fold_left].
    rewrite parse_member by (auto). reflexivity.
  - cbn [List.map join_with]. rewrite <- app_assoc. cbn [app].
    rewrite parse_member by (auto). cbn [N.eqb Pos.eqb].
    change (join_with 44 (stringify_member q :: List.map stringify_member ms))
      with (join_with 44 (List.map stringify_member (q :: ms))).
    rewrite IH; [reflexivity | discriminate | exact Hms | cbn [length] in *; lia].
Qed.

Lemma stringify_member_length (p : jsstring * jsstring) :
  (0 < length (stringify_member p))%nat.
Proof. unfold stringify_member, quote. cbn [app length]. lia. Qed.

Lemma join_with_cons (sep : N) (m : jsstring) (l : list jsstring) :
  join_with sep (m :: l)
  = match l with [] => m | _ :: _ => m ++ sep :: join_with sep l end.
Proof. destruct l; reflexivity. Qed.

Lemma join_members_length (ms : list (jsstring * jsstring)) :
  (length ms <= length (join_with 44 (List.map stringify_member ms)))%nat.
Proof.
  induction ms as [|p ms IH]; [cbn; lia|].
  cbn [List.map]. rewrite join_with_cons.
  pose proof (stringify_member_length p).
  destruct ms as [|q ms]; [cbn [List.map length]; lia|].
  cbn [List.map] in *. rewrite length_app.
  change (length (44 :: ?l)) with (S (length l)).
  cbn [length] in *. lia.
Qed.

Lemma join_members_head (p : jsstring * jsstring) (ms : list (jsstring * jsstring)) :
  exists t, join_with 44 (List.map stringify_member (p :: ms)) = 34 :: t.
Proof.
  destruct ms; cbn [List.map join_with]; unfold stringify_member, quote;
    cbn [app]; eexists; reflexivity.
Qed.

(** [JSON.parse] reads back what [JSON.stringify] writes for an object with
    string values: the properties are defined in the order they were
    written. *)
Lemma JSON_parse_stringify (o : list (jsstring * jsstring)) :
  Forall valid_member o ->
  JSON_parse (JSON_stringify o)
  = Some (JObj (fold_left define_member (own_properties o) [])).
Proof.
  intros Hv.
  assert (Hv' : Forall valid_member (own_properties o)).
  { unfold own_properties. apply Forall_app. split.
    - clear - Hv. induction o as [|p o IH]; [constructor|].
      inversion Hv as [|? ? Hp Ho]; subst. cbn [index_properties].
      destruct (array_index (fst p)) as [i|]; [|auto].
      specialize (IH Ho). clear - IH Hp.
      induction (index_properties o) as [|[j q] l IHl]; cbn [insert_index List.map].
      + constructor; [exact Hp | constructor].
      + inversion IH; subst. destruct (i <? j); cbn [List.map snd].
        * constructor; [exact Hp|]. constructor; assumption.
        * constructor; [assumption|]. apply IHl. assumption.
    - clear - Hv. induction Hv as [|p o Hp _ IH]; cbn [List.filter]; [constructor|].
      destruct (negb _); [constructor|]; assumption. }
  unfold JSON_parse, JSON_stringify.
  destruct (own_properties o) as [|p ms] eqn:E.
  - reflexivity.
  - destruct (join_members_head p ms) as (t & Ht).
    pose proof (join_members_length (p :: ms)) as Hlen.
    cbn [length]. revert Hlen. rewrite Ht. intros Hlen.
    change (parse_value (S (S (length ((34 :: t) ++ [125])))) (123 :: (34 :: t) ++ [125]))
      with (parse_members (S (length ((34 :: t) ++ [125]))) ((34 :: t) ++ [125]) []).
    rewrite <- Ht.
    rewrite parse_members_join; [reflexivity | discriminate | exact Hv' |].
    rewrite length_app, Ht. cbn [length] in *. lia.
Qed.

(** ** Own properties *)

Lemma str_eqb_true (a b : jsstring) : str_eqb a b = true <-> a = b.
Proof. unfold str_eqb. apply bool_decide_eq_true. Qed.

Lemma str_eqb_false (a b : jsstring) : str_eqb a b = false <-> a <> b.
Proof. unfold str_eqb. apply bool_decide_eq_false. Qed.

Lemma str_eqb_refl (a : jsstring) : str_eqb a a = true.
Proof. apply str_eqb_true. reflexivity. Qed.

Lemma obj_get_set {V} (o : list (jsstring * V)) (k k' : jsstring) (v : V) :
  obj_get (obj_set o k v) k' = if str_eqb k k' then Some v else obj_get o k'.
Proof.
  induction o as [|[k0 v0] o IH]; cbn [obj_set obj_get]; [reflexivity|].
  destruct (str_eqb k0 k) eqn:E0; cbn [obj_get].
  - apply str_eqb_true in E0. subst k0. destruct (str_eqb k k'); reflexivity.
  - rewrite IH. apply str_eqb_false in E0.
    destruct (str_eqb k0 k') eqn:E1; [|reflexivity].
    apply str_eqb_true in E1. subst k'.
    destruct (str_eqb k k0) eqn:E2; [|reflexivity].
    apply str_eqb_true in E2. congruence.
Qed.

Lemma obj_get_None {V} (o : list (jsstring * V)) (k : jsstring) :
  obj_get o k = None <-> ~ In k (List.map fst o).
Proof.
  induction o as [|[k0 v0] o IH]; cbn [obj_get List.map fst In]; [tauto|].
  destruct (str_eqb k0 k) eqn:E.
  - apply str_eqb_true in E. split; [discriminate | tauto].
  - apply str_eqb_false in E. rewrite IH. tauto.
Qed.

Lemma obj_get_In {V} (o : list (jsstring * V)) (k : jsstring) (v : V) :
  List.NoDup (List.map fst o) -> (obj_get o k = Some v <-> In (k, v) o).
Proof.
  induction o as [|[k0 v0] o IH]; cbn [obj_get List.map fst In]; intros Hnd.
  - split; [discriminate | tauto].
  - apply List.NoDup_cons_iff in Hnd as [Hk0 Hnd].
    destruct (str_eqb k0 k) eqn:E.
    + apply str_eqb_true in E. subst k0. split.
      * intros [= ->]. left; reflexivity.
      * intros [[= ->] | Hin]; [reflexivity|].
        exfalso. apply Hk0. apply (in_map fst) in Hin. exact Hin.
    + apply str_eqb_false in E. rewrite (IH Hnd). split; [tauto|].
      intros [[= -> ->] | Hin]; [congruence | exact Hin].
Qed.

Lemma obj_set_keys {V} (o : list (jsstring * V)) (k : jsstring) (v : V) :
  List.map fst (obj_set o k v)
  = if existsb (fun k0 => str_eqb k0 k) (List.map fst o) then List.map fst o
    else List.map fst o ++ [k].
Proof.
  induction o as [|[k0 v0] o IH]; cbn [obj_set List.map fst existsb app]; [reflexivity|].
  destruct (str_eqb k0 k) eqn:E; cbn [orb List.map fst]; [reflexivity|].
  rewrite IH. destruct (existsb _ _); reflexivity.
Qed.

Lemma obj_set_NoDup {V} (o : list (jsstring * V)) (k : jsstring) (v : V) :
  List.NoDup (List.map fst o) -> List.NoDup (List.map fst (obj_set o k v)).
Proof.
  intros Hnd. rewrite obj_set_keys.
  destruct (existsb _ _) eqn:E; [exact Hnd|].
  apply List.NoDup_app; [exact Hnd | repeat constructor; intros [] |].
  intros x Hx [<- | []].
  assert (existsb (fun k0 => str_eqb k0 k) (List.map fst o) = true) as Ht; [|congruence].
  apply existsb_exists. exists k. split; [exact Hx | apply str_eqb_refl].
Qed.

Lemma fold_define_member (ms : list (jsstring * jsstring)) :
  forall (acc : list (jsstring * json)) (k : jsstring),
  List.NoDup (List.map fst ms) ->
  obj_get (fold_left define_member ms acc) k
  = match obj_get ms k with
    | Some v => Some (JStr v)
    | None => obj_get acc k
    end.
Proof.
  induction ms as [|[k0 v0] ms IH]; intros acc k Hnd; [reflexivity|].
  cbn [List.map fst] in Hnd. apply List.NoDup_cons_iff in Hnd as [Hk0 Hnd].
  cbn [fold_left obj_get]. rewrite IH by exact Hnd.
  unfold define_member. cbn [fst snd]. rewrite obj_get_set.
  destruct (str_eqb k0 k) eqn:E; [|reflexivity].
  apply str_eqb_true in E. subst k0.
  apply obj_get_None in Hk0. rewrite Hk0. reflexivity.
Qed.

(** ** The order of [Object.entries] *)

Lemma insert_index_perm {V} (i : N) (p : jsstring * V) (l : list (N * (jsstring * V))) :
  Permutation (List.map snd (insert_index i p l)) (p :: List.map snd l).
Proof.
  induction l as [|[j q] l IH]; cbn [insert_index List.map snd]; [reflexivity|].
  destruct (i <? j); cbn [List.map snd]; [reflexivity|].
  rewrite IH. apply perm_swap.
Qed.

Lemma own_properties_perm {V} (o : list (jsstring * V)) :
  Permutation (own_properties o) o.
Proof.
  unfold own_properties, is_array_index.
  induction o as [|p o IH]; cbn [index_properties List.filter]; [reflexivity|].
  destruct (array_index (fst p)) as [i|]; cbn [negb].
  - rewrite insert_index_perm. cbn [app]. apply perm_skip. exact IH.
  - rewrite <- Permutation_middle. apply perm_skip. exact IH.
Qed.

Lemma own_properties_NoDup {V} (o : list (jsstring * V)) :
  List.NoDup (List.map fst o) -> List.NoDup (List.map fst (own_properties o)).
Proof.
  intros Hnd. eapply Permutation_NoDup; [|exact Hnd].
  apply Permutation_map. symmetry. apply own_properties_perm.
Qed.

Lemma own_properties_get {V} (o : list (jsstring * V)) (k : jsstring) :
  List.NoDup (List.map fst o) -> obj_get (own_properties o) k = obj_get o k.
Proof.
  intros Hnd. pose proof (own_properties_NoDup o Hnd) as Hnd'.
  destruct (obj_get o k) as [v|] eqn:E.
  - apply obj_get_In; [exact Hnd'|]. apply obj_get_In in E; [|exact Hnd].
    eapply Permutation_in; [symmetry; apply own_properties_perm | exact E].
  - apply obj_get_None. apply obj_get_None in E. intros Hin. apply E.
    eapply Permutation_in; [apply Permutation_map, own_properties_perm | exact Hin].
Qed.

(** The property read from the parsed text is the property of the object
    that was written. *)
Lemma parsed_property (o : list (jsstring * jsstring)) (k : jsstring) :
  Forall valid_member o -> List.NoDup (List.map fst o) ->
  exists props,
    JSON_parse (JSON_stringify o) = Some (JObj props)
    /\ obj_get props k = option_map JStr (obj_get o k).
Proof.
  intros Hv Hnd. eexists. split; [apply JSON_parse_stringify; exact Hv|].
  rewrite fold_define_member by (apply own_properties_NoDup; exact Hnd).
  rewrite own_properties_get by exact Hnd.
  destruct (obj_get o k); reflexivity.
Qed.

End JsonFacts.
(* ===================================================================== *)
(** * Proofs: [crypto.ts] *)

Module CryptoFacts.

Import Utf8 Js JsValue WebCrypto Crypto Spec.
Import Base64Facts Utf8Facts JsonFacts.

Section WithPlatform.

Context {P : Platform} (L : PlatformLaws P).

Lemma bind_lift {A B} (r : result A) (k : A -> M B) (w : world) :
  bind (lift r) k w = match r with Ok a => k a w | Throw e => (Throw e, w) end.
Proof. unfold bind, lift. destruct r; reflexivity. Qed.

Lemma bind_ok {A B} (m : M A) (k : A -> M B) (w w' : world) (a : A) :
  m w = (Ok a, w') -> bind m k w = k a w'.
Proof. intros H. unfold bind. rewrite H. reflexivity. Qed.

Lemma bind_throw {A B} (m : M A) (k : A -> M B) (w w' : world) (e : error) :
  m w = (Throw e, w') -> bind m k w = (Throw e, w').
Proof. intros H. unfold bind. rewrite H. reflexivity. Qed.

Lemma to_base64_ok (b : bytes) : to_base64 b = Ok (b64 b).
Proof. unfold to_base64, Base64.btoa, b64. rewrite fromCharCodes_small. reflexivity. Qed.

Lemma from_base64_b64 (b : bytes) : from_base64 (b64 b) = Ok b.
Proof.
  unfold from_base64, b64. rewrite atob_b64_encode.
  - rewrite charCodes_fromCharCodes. reflexivity.
  - unfold fromCharCodes. induction b as [|x b IH]; constructor;
      [apply byte_to_N_lt | exact IH].
Qed.

Lemma b64_is_jsstring (b : bytes) : is_jsstring (b64 b) = true.
Proof.
  unfold b64. generalize (fromCharCodes b). intros l.
  assert (Hc : forall n, is_code_unit (Base64.b64_char n) = true).
  { intros n. unfold is_code_unit, Base64.b64_char.
    destruct (N.ltb_spec n 26); [|destruct (N.ltb_spec n 52);
      [|destruct (N.ltb_spec n 62); [|destruct (N.eqb_spec n 62)]]];
      apply N.ltb_lt; lia. }
  induction l as [| a | a b' | a b' c l IH] using list_ind3;
    cbn [Base64.b64_encode is_jsstring forallb]; rewrite ?Hc; try reflexivity.
  exact IH.
Qed.


Lemma obj_set_valid (o : list (jsstring * jsstring)) (k v : jsstring) :
  Forall valid_member o -> is_jsstring k = true -> is_jsstring v = true ->
  Forall valid_member (obj_set o k v).
Proof.
  intros Ho Hk Hv. induction Ho as [|[k0 v0] o Hp Ho IH]; cbn [obj_set].
  - constructor; [split; assumption | constructor].
  - destruct (str_eqb k0 k) eqn:E.
    + constructor; [|assumption]. destruct Hp as [Hk0 _]. split; assumption.
    + constructor; assumption.
Qed.




Lemma decrypt_RSA_OAEP_ok (priv : CryptoKey) (sk : rsa_private) (c m : bytes) :
  decryption_key priv sk -> rsa_oaep_decrypt sk c = Some m ->
  decrypt_RSA_OAEP priv c = Ok m.
Proof.
  intros (Hk & Ha & Hu & Hm) Hdec. unfold decrypt_RSA_OAEP.
  rewrite Ha, Hu, Hk, Hm, Hdec. reflexivity.
Qed.









(** C7.  Without a stored record [retrievePrivateKey] returns [null]: the
    world is unchanged, nothing is derived or decrypted, and the password
    plays no part. *)
Theorem retrievePrivateKey_absent (userId password : jsstring) (w : world) :
  w_store w !! userId = None ->
  retrievePrivateKey userId password w = (Ok None, w).
Proof.
  intros Habsent. unfold retrievePrivateKey, bind, store_get.
  rewrite Habsent. reflexivity.
Qed.

(** C3 (as amended).  Recipient-resolution fallback: when the stored key
    field parses as an object that has no own property named by the caller's
    identifier, and the identifier names nothing an object inherits,
    [decryptMessage] does not fail on that account: it goes on with the value
    of the first own property in the order of [Object.values]. *)
Theorem decryptMessage_fallback (ciphertext encryptedKeyData iv : jsstring)
    (privateKey : CryptoKey) (myUserId : jsstring) (w : world)
    (props : list (jsstring * json)) (name : jsstring) (first : json)
    (others : list (jsstring * json)) :
  JSON_parse encryptedKeyData = Some (JObj props) ->
  obj_get props myUserId = None ->
  inherited builtins KObject myUserId = None ->
  own_properties props = (name, first) :: others ->
  resolve_key encryptedKeyData myUserId = VJson first
  /\ decryptMessage ciphertext encryptedKeyData iv privateKey myUserId w
     = decrypt_with ciphertext (json_to_string builtins first) iv privateKey w.
Proof.
  intros Hparse Hown Hinh Hfirst.
  assert (Hres : resolve_key encryptedKeyData myUserId = VJson first).
  { unfold resolve_key. rewrite Hparse. cbn [get]. rewrite Hown.
    unfold from_prototype. rewrite Hinh. cbn [truthy first_value].
    rewrite Hfirst. reflexivity. }
  split; [exact Hres|]. unfold decryptMessage. rewrite Hres. reflexivity.
Qed.

End WithPlatform.

End CryptoFacts.
(* ===================================================================== *)
(** * Proofs: the key vault *)

Module VaultFacts.

Import Utf8 Js JsValue WebCrypto Crypto Spec.
Import Base64Facts Utf8Facts JsonFacts CryptoFacts.

Lemma xor_bytes_length (a b : bytes) :
  length a = length b -> length (Pbkdf2.xor_bytes a b) = length a.
Proof.
  revert b. induction a as [|x a IH]; intros [|y b] H; cbn in *; try congruence.
  f_equal. apply IH. congruence.
Qed.

Section WithHash.

Variable H : bytes -> bytes.
Hypothesis H_length : forall b, length (H b) = 32%nat.

Lemma hmac_length (key msg : bytes) : length (Pbkdf2.hmac H key msg) = 32%nat.
Proof. unfold Pbkdf2.hmac. apply H_length. Qed.

Lemma block_length (password salt : bytes) (c : positive) (i : N) :
  length (Pbkdf2.block H password salt c i) = 32%nat.
Proof.
  unfold Pbkdf2.block.
  apply (N.iter_invariant (Pos.pred_N c) _ _
           (fun st => length (fst st) = 32%nat /\ length (snd st) = 32%nat)).
  - intros [u t] [Hu Ht]. cbn [fst snd] in *. split; [apply hmac_length|].
    rewrite xor_bytes_length; [exact Ht|]. rewrite hmac_length. exact Ht.
  - cbn [fst snd]. split; apply hmac_length.
Qed.

Lemma derive_length (password salt : bytes) (c : positive) :
  length (Pbkdf2.derive H password salt c 32) = 32%nat.
Proof.
  unfold Pbkdf2.derive. change ((32 + 31) / 32)%nat with 1%nat.
  cbn [Pbkdf2.blocks]. rewrite app_nil_r.
  rewrite firstn_all2; [apply block_length|]. rewrite block_length. lia.
Qed.

End WithHash.

Lemma N_iter_ext {A} (n : N) (f g : A -> A) (a : A) :
  (forall x, f x = g x) -> N.iter n f a = N.iter n g a.
Proof.
  intros Hfg. induction n as [|n IH] using N.peano_ind; [reflexivity|].
  rewrite !N.iter_succ, IH. apply Hfg.
Qed.

(** HMAC sees its key only through the key block, and so does PBKDF2. *)
Lemma derive_key_block (H : bytes -> bytes) (p p' salt : bytes) (c : positive) (n : nat) :
  Pbkdf2.key_block H p' = Pbkdf2.key_block H p ->
  Pbkdf2.derive H p' salt c n = Pbkdf2.derive H p salt c n.
Proof.
  intros Hkb.
  assert (Hh : forall msg, Pbkdf2.hmac H p' msg = Pbkdf2.hmac H p msg).
  { intros msg. unfold Pbkdf2.hmac. rewrite Hkb. reflexivity. }
  assert (Hb : forall i, Pbkdf2.block H p' salt c i = Pbkdf2.block H p salt c i).
  { intros i. unfold Pbkdf2.block. rewrite Hh. f_equal.
    apply N_iter_ext. intros st. rewrite Hh. reflexivity. }
  unfold Pbkdf2.derive. f_equal. generalize ((n + 31) / 32)%nat, 1.
  intros k. induction k as [|k IH]; intros i; cbn [Pbkdf2.blocks]; [reflexivity|].
  rewrite Hb, IH. reflexivity.
Qed.


(** The iteration of PBKDF2 is never unfolded below. *)
Opaque Pbkdf2.derive.

Section WithPlatform.

Context {P : Platform} (L : PlatformLaws P).

Lemma derived_key_length (password : jsstring) (salt : bytes) :
  length (derived_key password salt) = 32%nat.
Proof. unfold derived_key. apply derive_length. apply (sha256_length P L). Qed.

Lemma importKey_password (password : jsstring) :
  importKey_raw_PBKDF2 (encode password) false [DeriveKey]
  = Ok (mkKey Secret false PBKDF2 [DeriveKey] (Raw (encode password))).
Proof. reflexivity. Qed.

Lemma deriveKey_ok (password : jsstring) (salt : bytes) (u : usage) :
  u = Encrypt \/ u = Decrypt ->
  deriveKey_PBKDF2 salt 100000
    (mkKey Secret false PBKDF2 [DeriveKey] (Raw (encode password))) 256 false [u]
  = Ok (mkKey Secret false (AES_GCM 256) [u] (Raw (derived_key password salt))).
Proof.
  intros Hu. unfold deriveKey_PBKDF2.
  cbn [key_algorithm is_PBKDF2 usages has_usage existsb usage_code N.eqb Pos.eqb
       orb negb key_material].
  change (N.to_nat (256 / 8)) with 32%nat.
  fold (derived_key password salt).
  unfold importKey_raw_AES_GCM. rewrite derived_key_length.
  destruct Hu as [-> | ->]; reflexivity.
Qed.

(** What [encryptPrivateKey] returns and what it draws from the random
    source. *)
Lemma encryptPrivateKey_spec (privateKey : CryptoKey) (sk : rsa_private)
    (password : jsstring) (w : world) :
  extractable_private_key privateKey sk ->
  encryptPrivateKey privateKey password w
  = let (salt, g1) := random_bytes (w_rng w) 16 in
    let (iv, g2) := random_bytes g1 12 in
    (Ok (mkRecord (aes_gcm_encrypt (derived_key password salt) iv (pkcs8_encode sk))
           salt iv),
     mkWorld g2 (w_store w)).
Proof.
  intros (Hk & Ha & He & Hm). unfold encryptPrivateKey, getRandomValues.
  destruct (random_bytes (w_rng w) 16) as [salt g1] eqn:E1.
  destruct (random_bytes g1 12) as [iv g2] eqn:E2.
  erewrite bind_ok by (unfold with_rng; rewrite E1; reflexivity).
  erewrite bind_ok by (unfold with_rng; cbn [w_rng w_store]; rewrite E2; reflexivity).
  rewrite bind_lift, importKey_password. cbv iota beta.
  rewrite bind_lift, deriveKey_ok by (left; reflexivity). cbv iota beta.
  rewrite bind_lift. unfold exportKey.
  destruct (key_algorithm privateKey) eqn:Ealg; try discriminate.
  rewrite He, Hk, Hm. cbn [negb].
  rewrite bind_lift. reflexivity.
Qed.

(** What [decryptPrivateKey] returns, step by step. *)
Lemma decryptPrivateKey_spec (enc salt iv : bytes) (password : jsstring) (w : world) :
  decryptPrivateKey enc salt iv password w
  = (match aes_gcm_decrypt (derived_key password salt) iv enc with
     | None => Throw OperationError
     | Some m =>
         match pkcs8_decode m with
         | None => Throw DataError
         | Some sk => Ok (unlocked_key sk)
         end
     end, w).
Proof.
  unfold decryptPrivateKey.
  rewrite bind_lift, importKey_password. cbv iota beta.
  rewrite bind_lift, deriveKey_ok by (right; reflexivity). cbv iota beta.
  rewrite bind_lift. unfold decrypt_AES_GCM.
  cbn [key_algorithm is_AES_GCM usages has_usage existsb usage_code N.eqb Pos.eqb
       orb negb key_material].
  destruct (aes_gcm_decrypt _ _ _) as [m|]; [|reflexivity].
  unfold lift, importKey_pkcs8.
  cbn [usages_within forallb has_usage existsb usage_code N.eqb Pos.eqb orb andb negb].
  destruct (pkcs8_decode m); reflexivity.
Qed.

Lemma storePrivateKey_spec (userId : jsstring) (privateKey : CryptoKey)
    (sk : rsa_private) (password : jsstring) (w : world) :
  extractable_private_key privateKey sk ->
  storePrivateKey userId privateKey password w
  = let (salt, g1) := random_bytes (w_rng w) 16 in
    let (iv, g2) := random_bytes g1 12 in
    (Ok tt,
     mkWorld g2
       (<[userId := mkRecord
                      (aes_gcm_encrypt (derived_key password salt) iv (pkcs8_encode sk))
                      salt iv]> (w_store w))).
Proof.
  intros Hkey. unfold storePrivateKey, bind.
  rewrite (encryptPrivateKey_spec privateKey sk password w Hkey).
  destruct (random_bytes (w_rng w) 16) as [salt g1].
  destruct (random_bytes g1 12) as [iv g2]. reflexivity.
Qed.


Lemma retrievePrivateKey_stored (userId password : jsstring) (d : vault_record)
    (w : world) :
  w_store w !! userId = Some d ->
  retrievePrivateKey userId password w
  = (match aes_gcm_decrypt (derived_key password (salt d)) (iv d) (encrypted d) with
     | None => Throw OperationError
     | Some m =>
         match pkcs8_decode m with
         | None => Throw DataError
         | Some sk => Ok (Some (unlocked_key sk))
         end
     end, w).
Proof.
  intros Hd. unfold retrievePrivateKey, bind, store_get. rewrite Hd.
  rewrite decryptPrivateKey_spec.
  destruct (aes_gcm_decrypt _ _ _) as [m|]; [|reflexivity].
  destruct (pkcs8_decode m); reflexivity.
Qed.

(** The vault after [storePrivateKey], read with the same and with other
    passwords. *)
Lemma store_then_retrieve_parts (userId : jsstring) (privateKey : CryptoKey)
    (sk : rsa_private) (password : jsstring) (w : world) :
  extractable_private_key privateKey sk ->
  exists w1 d,
    storePrivateKey userId privateKey password w = (Ok tt, w1)
    /\ w_store w1 !! userId = Some d
    /\ retrievePrivateKey userId password w1 = (Ok (Some (unlocked_key sk)), w1)
    /\ (forall pk m g c g',
          rsa_matching pk sk -> rsa_oaep_encrypt pk m g = (Some c, g') ->
          decrypt_RSA_OAEP (unlocked_key sk) c = Ok m)
    /\ (forall other,
          Pbkdf2.key_block sha256 (encode other)
          = Pbkdf2.key_block sha256 (encode password) ->
          retrievePrivateKey userId other w1 = (Ok (Some (unlocked_key sk)), w1))
    /\ (forall other,
          aes_gcm_decrypt
            (Pbkdf2.derive sha256 (encode other) (salt d) 100000 32)
            (iv d) (encrypted d) = None ->
          retrievePrivateKey userId other w1 = (Throw OperationError, w1)).
Proof.
  intros Hkey.
  pose proof (storePrivateKey_spec userId privateKey sk password w Hkey) as Hrun.
  destruct (random_bytes (w_rng w) 16) as [s g1].
  destruct (random_bytes g1 12) as [i g2].
  eexists _, _. split; [exact Hrun|].
  split; [cbn [w_store]; apply lookup_insert_eq|].
  assert (Hsame : forall other,
            Pbkdf2.key_block sha256 (encode other)
            = Pbkdf2.key_block sha256 (encode password) ->
            retrievePrivateKey userId other
              (mkWorld g2
                 (<[userId := mkRecord
                                (aes_gcm_encrypt (derived_key password s) i
                                   (pkcs8_encode sk)) s i]> (w_store w)))
            = (Ok (Some (unlocked_key sk)),
               mkWorld g2
                 (<[userId := mkRecord
                                (aes_gcm_encrypt (derived_key password s) i
                                   (pkcs8_encode sk)) s i]> (w_store w)))).
  { intros other Hkb.
    erewrite retrievePrivateKey_stored by (cbn [w_store]; apply lookup_insert_eq).
    cbn [salt iv encrypted]. unfold derived_key at 1.
    rewrite (derive_key_block sha256 (encode password) (encode other) s 100000 32 Hkb).
    fold (derived_key password s).
    rewrite (aes_gcm_decrypt_encrypt P L), (pkcs8_decode_encode P L). reflexivity. }
  split; [apply Hsame; reflexivity|].
  split; [|split; [exact Hsame|]].
  - intros pk m g c g' Hmatch Henc.
    apply (decrypt_RSA_OAEP_ok (unlocked_key sk) sk c m).
    + repeat split.
    + apply (Hmatch m g c g' Henc).
  - intros other Hrej.
    erewrite retrievePrivateKey_stored by (cbn [w_store]; apply lookup_insert_eq).
    cbn [salt iv encrypted] in *. unfold derived_key at 1. rewrite Hrej. reflexivity.
Qed.


End WithPlatform.

End VaultFacts.
(* ===================================================================== *)
(** * Proofs: public keys, legacy envelopes and modified envelopes *)

Module EnvelopeFacts.

Import Utf8 Js JsValue WebCrypto Crypto Spec.
Import Base64Facts Utf8Facts JsonFacts CryptoFacts.

Section WithPlatform.

Context {P : Platform} (L : PlatformLaws P).

Lemma exportPublicKey_spec (key : CryptoKey) (pk : rsa_public) (w : world) :
  extractable_public_key key pk ->
  exportPublicKey key w = (Ok (b64 (spki_encode pk)), w).
Proof.
  intros (Hk & Ha & He & Hm). unfold exportPublicKey.
  rewrite bind_lift. unfold exportKey.
  destruct (key_algorithm key) eqn:Ealg; try discriminate.
  rewrite He, Hk, Hm. cbn [negb]. unfold lift. rewrite to_base64_ok. reflexivity.
Qed.

(** What [importPublicKey] returns, step by step. *)
Lemma importPublicKey_spec (base64 : jsstring) (w : world) :
  importPublicKey base64 w
  = (match Base64.atob base64 with
     | Throw e => Throw e
     | Ok binary =>
         match spki_decode (charCodes binary) with
         | None => Throw DataError
         | Some pk => Ok (imported_key pk)
         end
     end, w).
Proof.
  unfold importPublicKey. rewrite bind_lift.
  destruct (Base64.atob base64) as [binary|e]; [|reflexivity].
  unfold lift, importKey_spki.
  cbn [usages_within forallb has_usage existsb usage_code N.eqb Pos.eqb orb andb negb].
  destruct (spki_decode (charCodes binary)); reflexivity.
Qed.


End WithPlatform.

End EnvelopeFacts.
(* ===================================================================== *)
(** * Proofs: texts that [JSON.parse] rejects *)

Module LegacyFacts.

Import Utf8 Js JsValue WebCrypto Crypto Spec.
Import Base64Facts Utf8Facts JsonFacts CryptoFacts.

Lemma span_digits_split (s d r : jsstring) :
  span_digits s = (d, r) -> s = d ++ r /\ Forall number_char d.
Proof.
  revert d r. induction s as [|c s IH]; intros d r; cbn [span_digits].
  - intros [= <- <-]. split; [reflexivity | constructor].
  - destruct (is_digit c) eqn:E.
    + destruct (span_digits s) as [d' r'] eqn:E'. intros [= <- <-].
      destruct (IH d' r' eq_refl) as [-> Hd]. split; [reflexivity|].
      constructor; [left; exact E | exact Hd].
    + intros [= <- <-]. split; [reflexivity | constructor].
Qed.

Lemma parse_number_split (s t rest : jsstring) :
  parse_number s = Some (t, rest) -> s = t ++ rest /\ Forall number_char t.
Proof.
  unfold parse_number.
  destruct (parse_sign s) as [sg s0] eqn:Esg.
  assert (Hsg : s = sg ++ s0 /\ Forall number_char sg).
  { unfold parse_sign in Esg. destruct s as [|c s']; [injection Esg as <- <-; auto|].
    destruct (N.eqb_spec c 45) as [->|]; injection Esg as <- <-;
      (split; [reflexivity|]); [|constructor].
    constructor; [right; left; reflexivity | constructor]. }
  destruct Hsg as [-> Hsg].
  destruct (parse_int_part s0) as [[i s1]|] eqn:Ei; [|discriminate].
  assert (Hi : s0 = i ++ s1 /\ Forall number_char i).
  { unfold parse_int_part in Ei. destruct s0 as [|c s']; [discriminate|].
    destruct (N.eqb_spec c 48) as [->|].
    - injection Ei as <- <-. split; [reflexivity|].
      constructor; [left; reflexivity | constructor].
    - destruct (is_digit c) eqn:Ec; [|discriminate].
      destruct (span_digits s') as [d r] eqn:Ed. injection Ei as <- <-.
      destruct (span_digits_split _ _ _ Ed) as [-> Hd]. split; [reflexivity|].
      constructor; [left; exact Ec | exact Hd]. }
  destruct Hi as [-> Hi].
  destruct (parse_fraction s1) as [[f s2]|] eqn:Ef; [|discriminate].
  assert (Hf : s1 = f ++ s2 /\ Forall number_char f).
  { unfold parse_fraction in Ef. destruct s1 as [|c s']; [injection Ef as <- <-; auto|].
    destruct (N.eqb_spec c 46) as [->|].
    - destruct (span_digits s') as [d r] eqn:Ed.
      destruct (span_digits_split _ _ _ Ed) as [-> Hd].
      destruct d as [|x d]; [discriminate|]. injection Ef as <- <-.
      split; [reflexivity|]. constructor; [right; right; left; reflexivity | exact Hd].
    - injection Ef as <- <-. split; [reflexivity | constructor]. }
  destruct Hf as [-> Hf].
  destruct (parse_exponent s2) as [[e s3]|] eqn:Ee; [|discriminate].
  assert (He : s2 = e ++ s3 /\ Forall number_char e).
  { unfold parse_exponent in Ee. destruct s2 as [|c s']; [injection Ee as <- <-; auto|].
    destruct ((c =? 101) || (c =? 69)) eqn:Ec.
    - assert (Hc : number_char c).
      { apply orb_true_iff in Ec as [Ec | Ec]; apply N.eqb_eq in Ec; subst;
          unfold number_char; auto 6. }
      destruct s' as [|g s''].
      + cbn in Ee. discriminate.
      + destruct ((g =? 43) || (g =? 45)) eqn:Eg.
        * assert (Hg : number_char g).
          { apply orb_true_iff in Eg as [Eg | Eg]; apply N.eqb_eq in Eg; subst;
              unfold number_char; auto 6. }
          destruct (span_digits s'') as [d r] eqn:Ed.
          destruct (span_digits_split _ _ _ Ed) as [-> Hd].
          destruct d as [|x d]; [discriminate|]. injection Ee as <- <-.
          split; [reflexivity|]. constructor; [exact Hc|]. constructor; [exact Hg | exact Hd].
        * destruct (span_digits (g :: s'')) as [d r] eqn:Ed.
          destruct (span_digits_split _ _ _ Ed) as [Hs Hd].
          destruct d as [|x d]; [discriminate|]. injection Ee as <- <-.
          rewrite Hs. split; [reflexivity|]. constructor; [exact Hc | exact Hd].
    - injection Ee as <- <-. split; [reflexivity | constructor]. }
  destruct He as [-> He].
  intros [= <- <-]. split.
  - rewrite <- !app_assoc. reflexivity.
  - repeat (apply Forall_app; split); assumption.
Qed.

Lemma strip_prefix_split (p s r : jsstring) :
  strip_prefix p s = Some r -> s = p ++ r.
Proof.
  revert s. induction p as [|a p IH]; intros s; cbn [strip_prefix].
  - intros [= ->]. reflexivity.
  - destruct s as [|b s]; [discriminate|].
    destruct (N.eqb_spec a b) as [->|]; [|discriminate].
    intros Hr. rewrite (IH s Hr). reflexivity.
Qed.







End LegacyFacts.
(* ===================================================================== *)
(** * Proofs: the fuel of [JSON_parse] *)

Module FuelFacts.

Import Utf8 Js Spec Base64Facts Utf8Facts JsonFacts LegacyFacts.

Lemma skip_ws_length (s : jsstring) : (length (skip_ws s) <= length s)%nat.
Proof.
  induction s as [|c s IH]; cbn [skip_ws length]; [lia|].
  destruct (is_json_whitespace c); cbn [length]; lia.
Qed.

Lemma parse_string_body_length (s t r : jsstring) :
  parse_string_body s = Some (t, r) -> (length r < length s)%nat.
Proof.
  remember (length s) as n eqn:Hn. revert s t r Hn.
  induction n as [n IH] using lt_wf_ind. intros s t r Hn.
  destruct s as [|c rest]; cbn [parse_string_body]; [discriminate|].
  cbn [length] in Hn.
  destruct (c =? 34); [intros [= <- <-]; subst; cbn; lia|].
  destruct (c =? 92).
  - destruct rest as [|e rest1]; [discriminate|].
    destruct (e =? 117).
    + destruct rest1 as [|h1 [|h2 [|h3 [|h4 rest2]]]]; try discriminate.
      destruct (hex4 h1 h2 h3 h4); [|discriminate].
      destruct (parse_string_body rest2) as [[t' r']|] eqn:E; [|discriminate].
      intros [= <- <-].
      pose proof (IH (length rest2) ltac:(subst; cbn; lia) rest2 t' r' eq_refl E).
      subst. cbn [length]. lia.
    + destruct (simple_escape e); [|discriminate].
      destruct (parse_string_body rest1) as [[t' r']|] eqn:E; [|discriminate].
      intros [= <- <-].
      pose proof (IH (length rest1) ltac:(subst; cbn; lia) rest1 t' r' eq_refl E).
      subst. cbn [length]. lia.
  - destruct (c <? 32); [discriminate|].
    destruct (parse_string_body rest) as [[t' r']|] eqn:E; [|discriminate].
    intros [= <- <-].
    pose proof (IH (length rest) ltac:(subst; lia) rest t' r' eq_refl E).
    subst. cbn [length]. lia.
Qed.

Lemma strip_prefix_length (p s r : jsstring) :
  strip_prefix p s = Some r -> (length r <= length s)%nat.
Proof.
  intros H. apply strip_prefix_split in H. subst. rewrite length_app. lia.
Qed.

Lemma parse_number_length (s t r : jsstring) :
  parse_number s = Some (t, r) -> (length r < length s)%nat.
Proof.
  intros H. destruct (parse_number_split s t r H) as [-> _].
  assert (t <> []).
  { unfold parse_number in H.
    destruct (parse_sign (t ++ r)) as [sg s0].
    destruct (parse_int_part s0) as [[i s1]|] eqn:Ei; [|discriminate].
    destruct (parse_fraction s1) as [[f s2]|]; [|discriminate].
    destruct (parse_exponent s2) as [[e s3]|]; [|discriminate].
    injection H as <- <-.
    unfold parse_int_part in Ei. destruct s0 as [|c s']; [discriminate|].
    destruct (c =? 48); [injection Ei as <- <-|].
    - destruct sg; discriminate.
    - destruct (is_digit c); [|discriminate].
      destruct (span_digits s'). injection Ei as <- <-. destruct sg; discriminate. }
  rewrite length_app. destruct t; [congruence | cbn [length]; lia].
Qed.

Lemma skip_ws_cons (s : jsstring) (c : N) (r : jsstring) :
  skip_ws s = c :: r -> (S (length r) <= length s)%nat.
Proof. intros H. pose proof (skip_ws_length s) as Hl. rewrite H in Hl. exact Hl. Qed.

(** A parse that succeeds consumes at least one character, and succeeds in
    the same way with any fuel that is at least the number of characters it
    consumed. *)
Lemma fuel_enough (f : nat) :
  (forall s v rest,
     parse_value f s = Some (v, rest) ->
     (length rest < length s)%nat
     /\ forall f', (length s - length rest <= f')%nat ->
                   parse_value f' s = Some (v, rest))
  /\ (forall s acc v rest,
        parse_members f s acc = Some (v, rest) ->
        (length rest < length s)%nat
        /\ forall f', (length s - length rest <= f')%nat ->
                      parse_members f' s acc = Some (v, rest))
  /\ (forall s acc v rest,
        parse_elements f s acc = Some (v, rest) ->
        (length rest < length s)%nat
        /\ forall f', (length s - length rest <= f')%nat ->
                      parse_elements f' s acc = Some (v, rest)).
Proof.
  induction f as [|f (IHv & IHm & IHe)].
  { repeat split; discriminate. }
  split; [|split].
  - intros s v rest H. cbn [parse_value] in H.
    destruct (skip_ws s) as [|c r] eqn:Es; [discriminate|].
    pose proof (skip_ws_cons s c r Es) as Hs.
    destruct (c =? 123) eqn:E1.
    { destruct (skip_ws r) as [|c' r'] eqn:Er; [discriminate|].
      pose proof (skip_ws_cons r c' r' Er) as Hr.
      destruct (c' =? 125) eqn:E2.
      - injection H as <- <-. split; [lia|].
        intros [|f'] Hf; [lia|]. cbn [parse_value]. rewrite Es, E1, Er, E2. reflexivity.
      - destruct (IHm r [] v rest H) as [Hl Hfuel]. split; [lia|].
        intros [|f'] Hf; [lia|]. cbn [parse_value]. rewrite Es, E1, Er, E2.
        apply Hfuel. lia. }
    destruct (c =? 91) eqn:E2.
    { destruct (skip_ws r) as [|c' r'] eqn:Er; [discriminate|].
      pose proof (skip_ws_cons r c' r' Er) as Hr.
      destruct (c' =? 93) eqn:E3.
      - injection H as <- <-. split; [lia|].
        intros [|f'] Hf; [lia|]. cbn [parse_value]. rewrite Es, E1, E2, Er, E3. reflexivity.
      - destruct (IHe r [] v rest H) as [Hl Hfuel]. split; [lia|].
        intros [|f'] Hf; [lia|]. cbn [parse_value]. rewrite Es, E1, E2, Er, E3.
        apply Hfuel. lia. }
    destruct (c =? 34) eqn:E3.
    { destruct (parse_string_body r) as [[t r']|] eqn:Et; [|discriminate].
      pose proof (parse_string_body_length r t r' Et) as Hr.
      injection H as <- <-. split; [lia|].
      intros [|f'] Hf; [lia|]. cbn [parse_value]. rewrite Es, E1, E2, E3, Et. reflexivity. }
    destruct (c =? 116) eqn:E4.
    { destruct (strip_prefix (lit "rue") r) as [r'|] eqn:Et; [|discriminate].
      pose proof (strip_prefix_length _ r r' Et) as Hr.
      injection H as <- <-. split; [lia|].
      intros [|f'] Hf; [lia|]. cbn [parse_value]. rewrite Es, E1, E2, E3, E4, Et. reflexivity. }
    destruct (c =? 102) eqn:E5.
    { destruct (strip_prefix (lit "alse") r) as [r'|] eqn:Et; [|discriminate].
      pose proof (strip_prefix_length _ r r' Et) as Hr.
      injection H as <- <-. split; [lia|].
      intros [|f'] Hf; [lia|]. cbn [parse_value].
      rewrite Es, E1, E2, E3, E4, E5, Et. reflexivity. }
    destruct (c =? 110) eqn:E6.
    { destruct (strip_prefix (lit "ull") r) as [r'|] eqn:Et; [|discriminate].
      pose proof (strip_prefix_length _ r r' Et) as Hr.
      injection H as <- <-. split; [lia|].
      intros [|f'] Hf; [lia|]. cbn [parse_value].
      rewrite Es, E1, E2, E3, E4, E5, E6, Et. reflexivity. }
    destruct (parse_number (c :: r)) as [[t r']|] eqn:Et; [|discriminate].
    pose proof (parse_number_length _ t r' Et) as Hr. cbn [length] in Hr.
    injection H as <- <-. split; [lia|].
    intros [|f'] Hf; [lia|]. cbn [parse_value].
    rewrite Es, E1, E2, E3, E4, E5, E6, Et. reflexivity.
  - intros s acc v rest H. cbn [parse_members] in H.
    destruct (skip_ws s) as [|c r] eqn:Es; [discriminate|].
    pose proof (skip_ws_cons s c r Es) as Hs.
    destruct (c =? 34) eqn:E1; [|discriminate].
    destruct (parse_string_body r) as [[k r1]|] eqn:Ek; [|discriminate].
    pose proof (parse_string_body_length r k r1 Ek) as Hr.
    destruct (skip_ws r1) as [|c1 r2] eqn:E1s; [discriminate|].
    pose proof (skip_ws_cons r1 c1 r2 E1s) as Hr1.
    destruct (c1 =? 58) eqn:E2; [|discriminate].
    destruct (parse_value f r2) as [[v0 r3]|] eqn:Ev; [|discriminate].
    destruct (IHv r2 v0 r3 Ev) as [Hlv Hfv].
    destruct (skip_ws r3) as [|c3 r4] eqn:E3s; [discriminate|].
    pose proof (skip_ws_cons r3 c3 r4 E3s) as Hr3.
    destruct (c3 =? 44) eqn:E3.
    + destruct (IHm r4 _ v rest H) as [Hlm Hfm]. split; [lia|].
      intros [|f'] Hf; [lia|]. cbn [parse_members].
      rewrite Es, E1, Ek, E1s, E2, (Hfv f') by lia. rewrite E3s, E3.
      apply Hfm. lia.
    + destruct (c3 =? 125) eqn:E4; [|discriminate].
      injection H as <- <-. split; [lia|].
      intros [|f'] Hf; [lia|]. cbn [parse_members].
      rewrite Es, E1, Ek, E1s, E2, (Hfv f') by lia. rewrite E3s, E3, E4. reflexivity.
  - intros s acc v rest H. cbn [parse_elements] in H.
    destruct (parse_value f s) as [[v0 r1]|] eqn:Ev; [|discriminate].
    destruct (IHv s v0 r1 Ev) as [Hlv Hfv].
    destruct (skip_ws r1) as [|c r2] eqn:E1s; [discriminate|].
    pose proof (skip_ws_cons r1 c r2 E1s) as Hr1.
    destruct (c =? 44) eqn:E1.
    + destruct (IHe r2 _ v rest H) as [Hle Hfe]. split; [lia|].
      intros [|f'] Hf; [lia|]. cbn [parse_elements].
      rewrite (Hfv f') by lia. rewrite E1s, E1. apply Hfe. lia.
    + destruct (c =? 93) eqn:E2; [|discriminate].
      injection H as <- <-. split; [lia|].
      intros [|f'] Hf; [lia|]. cbn [parse_elements].
      rewrite (Hfv f') by lia. rewrite E1s, E1, E2. reflexivity.
Qed.

(** No amount of fuel reads a text that [JSON_parse] rejects: whatever a
    longer run of [parse_value] returns, the run of [JSON_parse] returns. *)
Lemma JSON_parse_fuel (f : nat) (text : jsstring) (v : json) (rest : jsstring) :
  parse_value f text = Some (v, rest) ->
  parse_value (S (length text)) text = Some (v, rest).
Proof.
  intros H. destruct (fuel_enough f) as (Hv & _ & _).
  destruct (Hv text v rest H) as [_ Hfuel]. apply Hfuel. lia.
Qed.

End FuelFacts.
(* ===================================================================== *)
(** * Proofs: legacy envelopes and modified envelopes *)

Module DecryptFacts.

Import Utf8 Js JsValue WebCrypto Crypto Spec.
Import Base64Facts Utf8Facts JsonFacts CryptoFacts LegacyFacts.

Section WithPlatform.

Context {P : Platform} (L : PlatformLaws P).




End WithPlatform.

End DecryptFacts.
(* ===================================================================== *)
(** * The small platform satisfies the laws *)

Module ToyFacts.

Import Utf8 Js JsValue WebCrypto Crypto Spec Toy.
Import Base64Facts Utf8Facts JsonFacts CryptoFacts.

Lemma bytes_eqb_refl (b : bytes) : bytes_eqb b b = true.
Proof. unfold bytes_eqb. apply bool_decide_eq_true. reflexivity. Qed.

Lemma toy_random_length (g : N) (n : nat) : length (fst (toy_random g n)) = n.
Proof. unfold toy_random. cbn [fst]. rewrite length_map, length_seq. reflexivity. Qed.

Lemma toy_rsa_decrypt_encrypt (k m c : bytes) (g g' : N) :
  toy_rsa_encrypt k m g = (Some c, g') -> toy_rsa_decrypt k c = Some m.
Proof.
  unfold toy_rsa_encrypt. destruct (190 <? length m)%nat; [discriminate|].
  pose proof (toy_random_length g 1) as Hr.
  destruct (toy_random g 1) as [r g1]. cbn [fst] in Hr.
  destruct r as [|r0 [|? ?]]; try discriminate. intros [= <- <-].
  unfold toy_rsa_decrypt.
  assert (Hbody : skipn (length k + 1) (k ++ r0 :: m ++ [checksum m])
                  = m ++ [checksum m]).
  { rewrite skipn_app, skipn_all2 by lia.
    replace (length k + 1 - length k)%nat with 1%nat by lia. reflexivity. }
  rewrite Hbody, removelast_last.
  rewrite firstn_app, firstn_all, Nat.sub_diag. cbn [firstn]. rewrite app_nil_r.
  rewrite bytes_eqb_refl.
  rewrite skipn_app, skipn_all, Nat.sub_diag. cbn [skipn app].
  rewrite bytes_eqb_refl.
  replace (length k + 2 <=? length (k ++ r0 :: m ++ [checksum m]))%nat with true.
  - reflexivity.
  - symmetry. apply Nat.leb_le. rewrite !length_app. cbn [length].
    rewrite length_app. cbn [length]. lia.
Qed.

Lemma toy_tag_length (k iv m : bytes) : length (toy_tag k iv m) = 16%nat.
Proof.
  unfold toy_tag. cbn [length]. rewrite length_firstn, !length_app, repeat_length. lia.
Qed.

Lemma toy_gcm_decrypt_encrypt (k iv m : bytes) :
  toy_gcm_decrypt k iv (toy_gcm_encrypt k iv m) = Some m.
Proof.
  unfold toy_gcm_decrypt.
  assert (Hm : firstn (length (toy_gcm_encrypt k iv m) - 16) (toy_gcm_encrypt k iv m) = m).
  { unfold toy_gcm_encrypt. rewrite length_app, toy_tag_length.
    replace (length m + 16 - 16)%nat with (length m) by lia.
    rewrite firstn_app, firstn_all, Nat.sub_diag. cbn [firstn]. apply app_nil_r. }
  rewrite Hm, bytes_eqb_refl. reflexivity.
Qed.

Lemma b64_vals_invalid (s : jsstring) (c : N) :
  In c s -> Base64.b64_val c = None -> Base64.b64_vals s = None.
Proof.
  intros Hin Hc. induction s as [|x s IH]; [destruct Hin|].
  cbn [Base64.b64_vals]. destruct Hin as [-> | Hin].
  - rewrite Hc. reflexivity.
  - rewrite (IH Hin). destruct (Base64.b64_val x); reflexivity.
Qed.

(** The text of a built-in function is not base64: it holds a parenthesis
    and ends with a brace. *)
Lemma atob_native_function (name : jsstring) :
  Base64.atob (native_function_text name) = Throw InvalidCharacterError.
Proof.
  unfold Base64.atob, native_function_text.
  rewrite !List.filter_app.
  set (head := List.filter _ (lit "function ")).
  set (middle := List.filter _ name).
  change (List.filter (fun c => negb (Base64.is_ascii_whitespace c))
            (lit "() { [native code] }")) with (lit "(){[nativecode]}").
  assert (Hstrip : Base64.strip_padding (head ++ middle ++ lit "(){[nativecode]}")
                   = head ++ middle ++ lit "(){[nativecode]}").
  { unfold Base64.strip_padding. destruct (_ =? 0)%nat; [|reflexivity].
    rewrite !rev_app_distr. reflexivity. }
  rewrite Hstrip. destruct (_ =? 1)%nat; [reflexivity|].
  rewrite (b64_vals_invalid _ 40); [reflexivity | | reflexivity].
  rewrite !in_app_iff. right; right. left. reflexivity.
Qed.

Lemma toy_inherited_not_base64 (name text : jsstring) :
  toy_inherited KObject name = Some text ->
  Base64.atob text = Throw InvalidCharacterError.
Proof.
  unfold toy_inherited. destruct (str_eqb name proto_name).
  - intros [= <-]. reflexivity.
  - destruct (existsb _ _); [|discriminate].
    intros [= <-]. apply atob_native_function.
Qed.

(** Every key is its own partner on the small platform. *)
Lemma toy_matching (k : bytes) : rsa_matching (P := platform) k k.
Proof. intros m g c g' H. exact (toy_rsa_decrypt_encrypt k m c g g' H). Qed.

Lemma toy_wraps (k : bytes) : wraps_content_key (P := platform) k.
Proof.
  intros m g Hm. cbn. unfold toy_rsa_encrypt. rewrite Hm. cbn [Nat.ltb Nat.leb].
  destruct (toy_random g 1). discriminate.
Qed.

Lemma laws : PlatformLaws platform.
Proof.
  constructor.
  - exact toy_random_length.
  - intros bits e g pk sk g'. cbn. unfold toy_generate.
    destruct (toy_random g 4) as [k g1]. intros [= <- <- <-]. apply toy_matching.
  - intros e g pk sk g'. cbn. unfold toy_generate.
    destruct (toy_random g 4) as [k g1]. intros [= <- <- <-]. apply toy_wraps.
  - intros pk m g c g'. cbn. unfold toy_rsa_encrypt.
    destruct (190 <? length m)%nat; [discriminate|].
    destruct (toy_random g 1) as [r g1]. intros [= <- <-].
    intros Hc. apply (f_equal (@length byte)) in Hc.
    rewrite !length_app in Hc. cbn [length] in Hc. lia.
  - intros pk. cbn. unfold toy_spki_decode, toy_spki_encode. reflexivity.
  - intros sk. cbn. unfold toy_pkcs8_decode, toy_pkcs8_encode. reflexivity.
  - exact toy_gcm_decrypt_encrypt.
  - intros b. change (length (toy_hash b) = 32%nat).
    unfold toy_hash. rewrite length_map, length_seq. reflexivity.
  - exact toy_inherited_not_base64.
Qed.

End ToyFacts.
(* ===================================================================== *)
(** * The theorems at concrete inputs *)

Module Witnesses.

Import Utf8 Js JsValue WebCrypto Crypto Spec Example.
Import Base64Facts Utf8Facts JsonFacts CryptoFacts VaultFacts EnvelopeFacts
  LegacyFacts DecryptFacts ToyFacts.

#[local] Existing Instance Toy.platform.






(** Nor does a surrogate without its partner come back: [TextEncoder]
    writes U+FFFD in its place. *)
Lemma round_trip_replaces_lone_surrogate :
  exists e w',
    encryptMessage lone_surrogate_text publicKeys w0 = (Ok e, w')
    /\ decryptMessage (ciphertext e) (encrypted_key_field e) (env_iv e)
         alice_private alice w0 = (Ok [replacement], w0)
    /\ [replacement] <> lone_surrogate_text.
Proof.
  eexists _, _. split; [vm_compute; reflexivity|].
  split; [vm_compute; reflexivity | discriminate].
Qed.

(** Nor is a recipient named [__proto__] served: the assignment in the loop
    of [encryptMessage] defines no property of that name, the stored map is
    empty, and [decryptMessage] throws. *)
Lemma round_trip_skips_proto_recipient :
  exists e w',
    encryptMessage hello proto_recipient w0 = (Ok e, w')
    /\ encryptedKeys e = []
    /\ decryptMessage (ciphertext e) (encrypted_key_field e) (env_iv e)
         alice_private proto_name w0 = (Throw InvalidCharacterError, w0).
Proof.
  eexists _, _. split; [vm_compute; reflexivity|].
  split; vm_compute; reflexivity.
Qed.



(** C3 at carol's reading of the envelope of [hello]. *)
Lemma decryptMessage_fallback_witness :
  JSON_parse hello_key_field = Some (JObj hello_properties)
  /\ obj_get hello_properties carol = None
  /\ inherited builtins KObject carol = None
  /\ own_properties hello_properties
     = (alice, JStr alice_wrapped_text) :: tl (own_properties hello_properties)
  /\ resolve_key hello_key_field carol = VJson (JStr alice_wrapped_text)
  /\ decryptMessage (ciphertext hello_envelope) hello_key_field
       (env_iv hello_envelope) alice_private carol w0
     = decrypt_with (ciphertext hello_envelope)
         (json_to_string builtins (JStr alice_wrapped_text))
         (env_iv hello_envelope) alice_private w0.
Proof.
  assert (H1 : JSON_parse hello_key_field = Some (JObj hello_properties))
    by (vm_compute; reflexivity).
  assert (H2 : obj_get hello_properties carol = None) by (vm_compute; reflexivity).
  assert (H3 : inherited builtins KObject carol = None) by (vm_compute; reflexivity).
  assert (H4 : own_properties hello_properties
               = (alice, JStr alice_wrapped_text) :: tl (own_properties hello_properties))
    by (vm_compute; reflexivity).
  split; [exact H1|]. split; [exact H2|]. split; [exact H3|]. split; [exact H4|].
  apply (decryptMessage_fallback (ciphertext hello_envelope) hello_key_field
           (env_iv hello_envelope) alice_private carol w0 hello_properties alice
           (JStr alice_wrapped_text) (tl (own_properties hello_properties))
           H1 H2 H3 H4).
Defined.

(** C3 fails for an identifier that names something every object
    inherits: the map has no property [constructor], yet the first entry is
    not taken, the inherited function is, and [atob] rejects its text; with
    the first entry alice would have read the message. *)
Lemma fallback_not_taken_for_inherited_name :
  JSON_parse hello_key_field = Some (JObj hello_properties)
  /\ obj_get hello_properties (lit "constructor") = None
  /\ decryptMessage (ciphertext hello_envelope) hello_key_field
       (env_iv hello_envelope) alice_private (lit "constructor") w0
     = (Throw InvalidCharacterError, w0)
  /\ first_value (JObj hello_properties) = VJson (JStr alice_wrapped_text)
  /\ decrypt_with (ciphertext hello_envelope) alice_wrapped_text
       (env_iv hello_envelope) alice_private w0 = (Ok hello, w0).
Proof.
  repeat split; vm_compute; reflexivity.
Qed.



Lemma alice_generated_private_extractable :
  extractable_private_key alice_generated_private alice_material.
Proof. repeat split. Qed.




(** C7 at the empty store. *)
Lemma retrievePrivateKey_absent_witness :
  w_store w0 !! alice = None
  /\ retrievePrivateKey alice password w0 = (Ok None, w0).
Proof.
  assert (H : w_store w0 !! alice = None) by reflexivity.
  split; [exact H|].
  exact (retrievePrivateKey_absent alice password w0 H).
Defined.



Lemma alice_generated_public_extractable :
  extractable_public_key alice_generated_public alice_material.
Proof. repeat split. Qed.




End Witnesses.
(* ===================================================================== *)
(** * Proofs: what a recipient reads, and whom an envelope names *)

Module MessageFacts.

Import Utf8 Js JsValue WebCrypto Crypto Spec Notions.
Import Base64Facts Utf8Facts JsonFacts CryptoFacts.

Ltac Zify.zify_post_hook ::= Z.to_euclidean_division_equations.

(** ** The text a decoder reads *)






Section WithPlatform.

Context {P : Platform} (L : PlatformLaws P).

(** ** Base64 *)

(** X1.  The two base64 conversions of [crypto.ts] are inverse: whenever
    [btoa(String.fromCharCode(...new Uint8Array(buf)))] gives a string,
    [Uint8Array.from(atob(s), c => c.charCodeAt(0))] gives back the bytes of
    [buf], and no other buffer has that string. *)
Theorem base64_round_trip (buf : bytes) (s : jsstring) :
  to_base64 buf = Ok s ->
  from_base64 s = Ok buf
  /\ forall buf', to_base64 buf' = Ok s -> buf' = buf.
Proof.
  rewrite to_base64_ok. intros [= <-]. split; [apply from_base64_b64|].
  intros buf'. rewrite to_base64_ok. intros [= H].
  pose proof (from_base64_b64 buf') as H'. rewrite H, from_base64_b64 in H'.
  congruence.
Qed.

(** ** What every recipient reads *)



(** ** Whom an envelope names *)

Lemma encrypt_RSA_OAEP_inv (key : CryptoKey) (data c : bytes) (g g' : rng) :
  encrypt_RSA_OAEP key data g = (Ok c, g') -> can_encrypt key.
Proof.
  unfold encrypt_RSA_OAEP, can_encrypt.
  destruct (is_RSA_OAEP (key_algorithm key)); cbn [negb]; [|discriminate].
  destruct (has_usage Encrypt (usages key)); cbn [negb]; [|discriminate].
  destruct (key_kind key); try discriminate.
  intros _. repeat split.
Qed.

Lemma obj_assign_names (acc : list (jsstring * jsstring)) (id v k : jsstring) :
  In k (names (obj_assign acc id v))
  <-> In k (names acc) \/ (k = id /\ k <> proto_name).
Proof.
  unfold obj_assign, names. destruct (str_eqb id proto_name) eqn:E.
  - apply str_eqb_true in E. subst id. tauto.
  - apply str_eqb_false in E. rewrite obj_set_keys.
    destruct (existsb (fun k0 => str_eqb k0 id) (List.map fst acc)) eqn:Ex.
    + apply existsb_exists in Ex as (k0 & Hk0 & Heq). apply str_eqb_true in Heq.
      subst k0. split; [tauto|]. intros [? | [-> _]]; assumption.
    + rewrite in_app_iff. cbn [In]. split.
      * intros [? | [<- | []]]; [tauto | right; split; [reflexivity | exact E]].
      * intros [? | [-> _]]; [tauto | right; left; reflexivity].
Qed.

(** The loop of [encryptMessage], when it ends without an exception, has
    used every key of the entries and has defined a property for every name
    of the entries but [__proto__], and no other. *)
Lemma wrap_for_entries_inv (raw : bytes) (entries : list (jsstring * CryptoKey)) :
  forall (acc acc' : list (jsstring * jsstring)) (w w' : world),
  wrap_for_entries entries raw acc w = (Ok acc', w') ->
  w_store w' = w_store w
  /\ (forall id key, In (id, key) entries -> can_encrypt key)
  /\ (forall k, In k (names acc')
                <-> In k (names acc) \/ (In k (names entries) /\ k <> proto_name))
  /\ (List.NoDup (names acc) -> List.NoDup (names acc'))
  /\ (Forall valid_member acc ->
      Forall (fun p => is_jsstring (fst p) = true) entries ->
      Forall valid_member acc').
Proof.
  induction entries as [|[id key] entries IH]; intros acc acc' w w' Hrun.
  - cbn [wrap_for_entries] in Hrun. unfold ret in Hrun. injection Hrun as <- <-.
    split; [reflexivity|]. split; [intros ? ? []|].
    split; [cbn [names List.map In]; tauto|]. split; auto.
  - cbn [wrap_for_entries] in Hrun. unfold bind at 1 in Hrun. unfold with_rng in Hrun.
    destruct (encrypt_RSA_OAEP key raw (w_rng w)) as [[c|e] g'] eqn:Henc;
      [|discriminate].
    rewrite bind_lift, to_base64_ok in Hrun.
    apply IH in Hrun as (Hst & Hkeys & Hnames & Hnd & Hval).
    split; [exact Hst|]. split; [|split; [|split]].
    + intros id' key' [[= <- <-] | Hin].
      * apply (encrypt_RSA_OAEP_inv key raw c (w_rng w) g' Henc).
      * apply (Hkeys id' key' Hin).
    + intros k. rewrite Hnames, obj_assign_names. cbn [names List.map fst In].
      split.
      * intros [[? | [-> ?]] | [? ?]]; auto.
      * intros [? | [[<- | ?] ?]]; auto.
    + intros Hacc. apply Hnd. unfold obj_assign, names.
      destruct (str_eqb id proto_name); [exact Hacc|].
      apply obj_set_NoDup. exact Hacc.
    + intros Hacc Hstr. apply List.Forall_cons_iff in Hstr as [Hid Hstr].
      apply Hval; [|exact Hstr]. unfold obj_assign.
      destruct (str_eqb id proto_name); [exact Hacc|].
      apply obj_set_valid; [exact Hacc | exact Hid | apply b64_is_jsstring].
Qed.

Lemma bind_inv {A B} (m : M A) (k : A -> M B) (w w' : world) (b : B) :
  bind m k w = (Ok b, w') ->
  exists a w1, m w = (Ok a, w1) /\ k a w1 = (Ok b, w').
Proof.
  unfold bind. destruct (m w) as [[a|e] w1]; [|discriminate].
  intros H. exists a, w1. split; [reflexivity | exact H].
Qed.

Lemma lift_inv {A} (r : result A) (w w' : world) (a : A) :
  lift r w = (Ok a, w') -> r = Ok a /\ w' = w.
Proof. unfold lift. intros [= -> ->]. split; reflexivity. Qed.

Lemma with_rng_store {A} (f : rng -> result A * rng) (w w' : world) (r : result A) :
  with_rng f w = (r, w') -> w_store w' = w_store w.
Proof.
  unfold with_rng. destruct (f (w_rng w)) as [r0 g]. intros [= _ <-]. reflexivity.
Qed.

(** What an envelope returned by [encryptMessage] tells of the call. *)
Lemma encryptMessage_inv (plaintext : jsstring)
    (publicKeys : list (jsstring * CryptoKey)) (w w' : world) (e : envelope) :
  encryptMessage plaintext publicKeys w = (Ok e, w') ->
  w_store w' = w_store w
  /\ (forall id key, In (id, key) publicKeys -> can_encrypt key)
  /\ (forall k, In k (names (encryptedKeys e))
                <-> In k (names publicKeys) /\ k <> proto_name)
  /\ (List.NoDup (names (encryptedKeys e)))
  /\ (Forall (fun p => is_jsstring (fst p) = true) publicKeys ->
      Forall valid_member (encryptedKeys e)).
Proof.
  unfold encryptMessage. intros H.
  apply bind_inv in H as (aesKey & w1 & H1 & H).
  apply bind_inv in H as (ivArr & w2 & H2 & H).
  apply bind_inv in H as (ciphertextBuf & w3 & H3 & H).
  apply bind_inv in H as (exportedAesKey & w4 & H4 & H).
  apply bind_inv in H as (keys & w5 & H5 & H).
  apply bind_inv in H as (ct & w6 & H6 & H).
  apply bind_inv in H as (ivs & w7 & H7 & H).
  unfold ret in H. injection H as <- <-.
  apply lift_inv in H3 as [_ ->], H4 as [_ ->], H6 as [_ ->], H7 as [_ ->].
  apply with_rng_store in H1. unfold getRandomValues in H2. apply with_rng_store in H2.
  apply wrap_for_entries_inv in H5 as (Hst & Hkeys & Hnames & Hnd & Hval).
  cbn [encryptedKeys].
  split; [congruence|]. split; [|split; [|split]].
  - intros id key Hin. apply (Hkeys id key).
    eapply Permutation_in; [symmetry; apply own_properties_perm | exact Hin].
  - intros k. rewrite Hnames. cbn [names List.map In].
    assert (Hp : In k (names (own_properties publicKeys)) <-> In k (names publicKeys)).
    { unfold names. split; apply Permutation_in; [|symmetry];
        apply Permutation_map, own_properties_perm. }
    rewrite Hp. tauto.
  - apply Hnd. constructor.
  - intros Hstr. apply Hval; [constructor|].
    rewrite List.Forall_forall in *. intros p Hin. apply Hstr.
    eapply Permutation_in; [apply own_properties_perm | exact Hin].
Qed.

(** X3.  An envelope is all or nothing: when [encryptMessage] returns one,
    every key of [publicKeys] was an RSA-OAEP public key allowed to encrypt,
    [encryptedKeys] has a property for every name of [publicKeys] but
    [__proto__] and for no other name, and the key store is as it was. *)
Theorem envelope_names_recipients (plaintext : jsstring)
    (publicKeys : list (jsstring * CryptoKey)) (w w' : world) (e : envelope) :
  encryptMessage plaintext publicKeys w = (Ok e, w') ->
  (forall id key, In (id, key) publicKeys -> can_encrypt key)
  /\ (forall k, In k (names (encryptedKeys e))
                <-> In k (names publicKeys) /\ k <> proto_name)
  /\ List.NoDup (names (encryptedKeys e))
  /\ w_store w' = w_store w.
Proof.
  intros H. apply encryptMessage_inv in H as (Hst & Hkeys & Hnames & Hnd & _).
  split; [exact Hkeys|]. split; [exact Hnames|]. split; [exact Hnd | exact Hst].
Qed.

(** X4.  The stored key field reads back: for recipients whose names are
    strings, the text [JSON.stringify(encrypted.encryptedKeys)] that the
    caller stores is parsed by [JSON.parse], as [decryptMessage] does, into
    an object with the same string under every name. *)
Theorem key_field_parses_back (plaintext : jsstring)
    (publicKeys : list (jsstring * CryptoKey)) (w w' : world) (e : envelope) :
  Forall (fun p => is_jsstring (fst p) = true) publicKeys ->
  encryptMessage plaintext publicKeys w = (Ok e, w') ->
  exists props,
    JSON_parse (encrypted_key_field e) = Some (JObj props)
    /\ forall k, obj_get props k = option_map JStr (obj_get (encryptedKeys e) k).
Proof.
  intros Hstr H. apply encryptMessage_inv in H as (_ & _ & _ & Hnd & Hval).
  specialize (Hval Hstr). unfold encrypted_key_field.
  destruct (JSON_parse (JSON_stringify (encryptedKeys e))) as [[| | | | |props]|] eqn:E;
    try (destruct (parsed_property (encryptedKeys e) [] Hval Hnd) as (p & Hp & _);
         congruence).
  exists props. split; [reflexivity|]. intros k.
  destruct (parsed_property (encryptedKeys e) k Hval Hnd) as (p & Hp & Hget).
  congruence.
Qed.

End WithPlatform.

End MessageFacts.
(* ===================================================================== *)
(** * Proofs: what each kind of key can be used for *)

Module KeyFacts.

Import Utf8 Js JsValue WebCrypto Crypto Spec Notions.
Import Base64Facts Utf8Facts JsonFacts CryptoFacts VaultFacts EnvelopeFacts
  MessageFacts.

Section WithPlatform.

Context {P : Platform} (L : PlatformLaws P).

Lemma b64_injective (a b : bytes) : b64 a = b64 b -> a = b.
Proof.
  intros H. pose proof (from_base64_b64 a) as Ha.
  rewrite H, from_base64_b64 in Ha. congruence.
Qed.

Lemma spki_encode_injective (pk1 pk2 : rsa_public) :
  spki_encode pk1 = spki_encode pk2 -> pk1 = pk2.
Proof.
  intros H. pose proof (spki_decode_encode P L pk1) as H1.
  rewrite H, (spki_decode_encode P L) in H1. congruence.
Qed.

(** X5.  The exported text identifies the key: two extractable public keys
    give the same string under [exportPublicKey] exactly when they hold the
    same RSA public key. *)
Theorem exportPublicKey_identifies (k1 k2 : CryptoKey) (pk1 pk2 : rsa_public)
    (w1 w2 : world) :
  extractable_public_key k1 pk1 -> extractable_public_key k2 pk2 ->
  (fst (exportPublicKey k1 w1) = fst (exportPublicKey k2 w2) <-> pk1 = pk2).
Proof.
  intros H1 H2.
  rewrite (exportPublicKey_spec k1 pk1 w1 H1), (exportPublicKey_spec k2 pk2 w2 H2).
  cbn [fst]. split.
  - intros [= H]. apply spki_encode_injective, b64_injective, H.
  - intros ->. reflexivity.
Qed.

(** ** [generateKeyPair] *)

(** What [generateKeyPair] returns, step by step. *)
Lemma generateKeyPair_spec (w : world) :
  generateKeyPair w
  = match rsa_generate 2048 [x01; x00; x01] (w_rng w) with
    | (Some (pk, sk), g) =>
        (Ok (mkPair (mkKey Public true (RSA_OAEP SHA_256) [Encrypt] (RsaPublic pk))
               (mkKey Private true (RSA_OAEP SHA_256) [Decrypt] (RsaPrivate sk))),
         mkWorld g (w_store w))
    | (None, g) => (Throw OperationError, mkWorld g (w_store w))
    end.
Proof.
  unfold generateKeyPair, with_rng, generateKey_RSA_OAEP.
  cbn [usages_within usages_among forallb List.filter has_usage existsb usage_code
       N.eqb Pos.eqb orb andb negb].
  destruct (rsa_generate 2048 [x01; x00; x01] (w_rng w)) as [[[pk sk]|] g]; reflexivity.
Qed.

Lemma generated_pair (w w' : world) (kp : CryptoKeyPair) :
  generateKeyPair w = (Ok kp, w') ->
  exists pk sk,
    publicKey kp = mkKey Public true (RSA_OAEP SHA_256) [Encrypt] (RsaPublic pk)
    /\ privateKey kp = mkKey Private true (RSA_OAEP SHA_256) [Decrypt] (RsaPrivate sk)
    /\ rsa_matching pk sk /\ wraps_content_key pk
    /\ w_store w' = w_store w.
Proof.
  rewrite generateKeyPair_spec.
  destruct (rsa_generate 2048 [x01; x00; x01] (w_rng w)) as [[[pk sk]|] g] eqn:E;
    [|discriminate].
  intros [= <- <-]. exists pk, sk. cbn [publicKey privateKey w_store].
  split; [reflexivity|]. split; [reflexivity|].
  split; [apply (rsa_generate_matching P L _ _ _ _ _ _ E)|].
  split; [apply (rsa_generate_2048_wraps P L _ _ _ _ _ E) | reflexivity].
Qed.

(** X6.  [generateKeyPair] either fails with OperationError or returns an
    extractable RSA-OAEP pair: a public key whose only usage is encrypt and
    a private key whose only usage is decrypt, such that the private key
    decrypts what the public key encrypts and the public key can wrap the
    32 bytes of a content key.  In both cases the key store is as it was. *)
Theorem generateKeyPair_postcondition (w : world) :
  match generateKeyPair w with
  | (Ok kp, w') =>
      (exists pk sk,
         extractable_public_key (publicKey kp) pk
         /\ extractable_private_key (privateKey kp) sk)
      /\ usages (publicKey kp) = [Encrypt]
      /\ usages (privateKey kp) = [Decrypt]
      /\ key_pair (publicKey kp) (privateKey kp)
      /\ w_store w' = w_store w
  | (Throw e, w') => e = OperationError /\ w_store w' = w_store w
  end.
Proof.
  destruct (generateKeyPair w) as [[kp|e] w'] eqn:E.
  - destruct (generated_pair w w' kp E) as (pk & sk & -> & -> & Hm & Hw & Hst).
    split; [exists pk, sk; split; repeat split|].
    split; [reflexivity|]. split; [reflexivity|]. split; [|exact Hst].
    exists pk, sk. split; [repeat split|]. split; [repeat split|].
    split; assumption.
  - rewrite generateKeyPair_spec in E.
    destruct (rsa_generate 2048 [x01; x00; x01] (w_rng w)) as [[[pk sk]|] g];
      [discriminate|].
    injection E as <- <-. split; reflexivity.
Qed.

(** ** [hasPrivateKey] *)

Lemma retrieve_nothing (userId password : jsstring) (w : world) :
  w_store w !! userId = None ->
  retrievePrivateKey userId password w = (Ok None, w).
Proof.
  intros H. unfold retrievePrivateKey, bind, store_get, ret. rewrite H. reflexivity.
Qed.

Lemma hasPrivateKey_spec (userId : jsstring) (w : world) :
  hasPrivateKey userId w
  = (Ok (match w_store w !! userId with Some _ => true | None => false end), w).
Proof. reflexivity. Qed.





(** ** Keys that came out of the vault or out of a profile *)

Lemma retrieved_key (userId password : jsstring) (w w1 : world) (key : CryptoKey) :
  retrievePrivateKey userId password w = (Ok (Some key), w1) ->
  w1 = w /\ exists sk, key = unlocked_key sk.
Proof.
  destruct (w_store w !! userId) as [d|] eqn:E.
  - rewrite (retrievePrivateKey_stored L userId password d w E).
    destruct (aes_gcm_decrypt _ _ _) as [m|]; [|discriminate].
    destruct (pkcs8_decode m) as [sk|]; [|discriminate].
    intros [= <- <-]. split; [reflexivity | exists sk; reflexivity].
  - rewrite (retrieve_nothing userId password w E). discriminate.
Qed.

Lemma storePrivateKey_not_extractable (userId password : jsstring) (key : CryptoKey)
    (w : world) :
  is_RSA_OAEP (key_algorithm key) = true -> extractable key = false ->
  exists w', storePrivateKey userId key password w = (Throw InvalidAccessError, w')
             /\ w_store w' = w_store w.
Proof.
  intros Ha He. unfold storePrivateKey, encryptPrivateKey, getRandomValues.
  destruct (random_bytes (w_rng w) 16) as [salt g1] eqn:E1.
  destruct (random_bytes g1 12) as [iv g2] eqn:E2.
  exists (mkWorld g2 (w_store w)). split; [|reflexivity].
  unfold bind at 1. unfold bind at 1.
  unfold with_rng at 1. rewrite E1. cbv iota beta.
  unfold bind at 1. unfold with_rng at 1. cbn [w_rng w_store]. rewrite E2. cbv iota beta.
  rewrite bind_lift, importKey_password. cbv iota beta.
  rewrite bind_lift, (deriveKey_ok L) by (left; reflexivity). cbv iota beta.
  rewrite bind_lift. unfold exportKey.
  destruct (key_algorithm key); try discriminate.
  rewrite He. reflexivity.
Qed.

Lemma encryptMessage_rejects (plaintext : jsstring)
    (publicKeys : list (jsstring * CryptoKey)) (id : jsstring) (key : CryptoKey)
    (w : world) :
  In (id, key) publicKeys -> ~ can_encrypt key ->
  exists e w', encryptMessage plaintext publicKeys w = (Throw e, w').
Proof.
  intros Hin Hno.
  destruct (encryptMessage plaintext publicKeys w) as [[env|e] w'] eqn:E.
  - exfalso. apply Hno.
    apply encryptMessage_inv in E as (_ & Hkeys & _). apply (Hkeys id key Hin).
  - exists e, w'. reflexivity.
Qed.

(** X9.  A key that came out of the vault can only decrypt: the key
    [retrievePrivateKey] returns is an RSA-OAEP private key allowed to
    decrypt and not extractable, so [storePrivateKey] with it fails with
    InvalidAccessError and leaves the store as it was (it cannot be stored
    again, under a new password or another identifier), and
    [encryptMessage] with it among the recipients returns no envelope. *)
Theorem retrieved_key_only_decrypts (userId password : jsstring) (w w1 : world)
    (key : CryptoKey) :
  retrievePrivateKey userId password w = (Ok (Some key), w1) ->
  w1 = w
  /\ can_decrypt key
  /\ extractable key = false
  /\ (forall u pw w2,
        exists w3, storePrivateKey u key pw w2 = (Throw InvalidAccessError, w3)
                   /\ w_store w3 = w_store w2)
  /\ (forall plaintext publicKeys id w2,
        In (id, key) publicKeys ->
        exists e w3, encryptMessage plaintext publicKeys w2 = (Throw e, w3)).
Proof.
  intros H. apply retrieved_key in H as [-> [sk ->]].
  split; [reflexivity|]. split; [repeat split|]. split; [reflexivity|]. split.
  - intros u pw w2. apply storePrivateKey_not_extractable; reflexivity.
  - intros plaintext publicKeys id w2 Hin.
    apply (encryptMessage_rejects plaintext publicKeys id (unlocked_key sk) w2 Hin).
    intros [Hk _]. discriminate.
Qed.

Lemma decrypt_with_public_key (ciphertext keyText iv : jsstring) (key : CryptoKey)
    (w : world) :
  ~ can_decrypt key ->
  exists e, decrypt_with ciphertext keyText iv key w = (Throw e, w).
Proof.
  intros Hno. unfold decrypt_with.
  rewrite bind_lift. destruct (from_base64 ciphertext); [|eexists; reflexivity].
  rewrite bind_lift. destruct (from_base64 keyText); [|eexists; reflexivity].
  rewrite bind_lift. destruct (from_base64 iv); [|eexists; reflexivity].
  rewrite bind_lift. unfold decrypt_RSA_OAEP.
  destruct (is_RSA_OAEP (key_algorithm key)) eqn:Ea; cbn [negb];
    [|eexists; reflexivity].
  destruct (has_usage Decrypt (usages key)) eqn:Eu; cbn [negb];
    [|eexists; reflexivity].
  destruct (key_kind key) eqn:Ek; try (eexists; reflexivity).
  exfalso. apply Hno. repeat split; assumption.
Qed.

(** X10.  A key that came out of a profile can only encrypt: the key
    [importPublicKey] returns is an RSA-OAEP public key allowed to encrypt
    and not extractable, so [exportPublicKey] of it fails with
    InvalidAccessError, and [decryptMessage] with it in the place of the
    private key throws on every input and changes nothing. *)
Theorem imported_key_only_encrypts (base64 : jsstring) (w w1 : world)
    (key : CryptoKey) :
  importPublicKey base64 w = (Ok key, w1) ->
  w1 = w
  /\ can_encrypt key
  /\ extractable key = false
  /\ (forall w2, exportPublicKey key w2 = (Throw InvalidAccessError, w2))
  /\ (forall ciphertext encryptedKeyData iv myUserId w2,
        exists e,
          decryptMessage ciphertext encryptedKeyData iv key myUserId w2
          = (Throw e, w2)).
Proof.
  rewrite importPublicKey_spec.
  destruct (Base64.atob base64) as [binary|e]; [|discriminate].
  destruct (spki_decode (charCodes binary)) as [pk|]; [|discriminate].
  intros [= <- <-].
  split; [reflexivity|]. split; [repeat split|]. split; [reflexivity|]. split.
  - intros w2. reflexivity.
  - intros ciphertext encryptedKeyData iv myUserId w2. unfold decryptMessage.
    apply decrypt_with_public_key. intros [Hk _]. discriminate.
Qed.

End WithPlatform.

End KeyFacts.
(* ===================================================================== *)
(** * Proofs: the chat page *)

Module ChatFacts.

Import Utf8 Js JsValue JsString WebCrypto Crypto Chat Spec Notions.
Import Base64Facts Utf8Facts JsonFacts CryptoFacts VaultFacts EnvelopeFacts
  MessageFacts KeyFacts.

Ltac Zify.zify_post_hook ::= Z.to_euclidean_division_equations.

(** ** [trim] *)













(** ** The order of strings *)

Lemma str_ltb_asym (a b : jsstring) : str_ltb a b = true -> str_ltb b a = false.
Proof.
  revert b. induction a as [|x a IH]; intros [|y b]; cbn [str_ltb]; try congruence.
  destruct (N.ltb_spec x y), (N.ltb_spec y x); try congruence; try lia.
  apply IH.
Qed.

Lemma str_ltb_total (a b : jsstring) :
  str_ltb a b = false -> str_ltb b a = false -> a = b.
Proof.
  revert b. induction a as [|x a IH]; intros [|y b]; cbn [str_ltb]; try congruence.
  destruct (N.ltb_spec x y), (N.ltb_spec y x); try congruence.
  intros Hab Hba. assert (x = y) by lia. subst y. f_equal. apply IH; assumption.
Qed.

Lemma sort_pair_symmetric (a b : jsstring) : sort_pair a b = sort_pair b a.
Proof.
  unfold sort_pair. destruct (str_ltb b a) eqn:Eba.
  - rewrite (str_ltb_asym b a Eba). reflexivity.
  - destruct (str_ltb a b) eqn:Eab; [reflexivity|].
    rewrite (str_ltb_total a b Eab Eba). reflexivity.
Qed.

(** X11.  Both sides of a conversation name the same room: [roomId], and
    with it the name of the channel, does not depend on which of the two
    identifiers is the user's and which the friend's. *)
Theorem roomId_symmetric (userId friendId : jsstring) :
  roomId userId friendId = roomId friendId userId
  /\ channel_name userId friendId = channel_name friendId userId.
Proof.
  unfold channel_name, roomId. rewrite (sort_pair_symmetric userId friendId).
  split; reflexivity.
Qed.

(** ** The displayed list *)

Lemma add_message_cases (entry : DecryptedMessage) (prev : list DecryptedMessage) :
  (In (msg_id entry) (List.map msg_id prev) /\ add_message entry prev = prev)
  \/ (~ In (msg_id entry) (List.map msg_id prev)
      /\ add_message entry prev = prev ++ [entry]).
Proof.
  unfold add_message.
  destruct (existsb (fun m => str_eqb (msg_id m) (msg_id entry)) prev) eqn:E.
  - left. split; [|reflexivity].
    apply existsb_exists in E as (m & Hin & Heq). apply str_eqb_true in Heq.
    rewrite <- Heq. apply in_map. exact Hin.
  - right. split; [|reflexivity]. intros Hin.
    apply in_map_iff in Hin as (m & Heq & Hin).
    assert (Hex : existsb (fun m => str_eqb (msg_id m) (msg_id entry)) prev = true).
    { apply existsb_exists. exists m. split; [exact Hin|].
      apply str_eqb_true. exact Heq. }
    congruence.
Qed.

Lemma add_message_NoDup (entry : DecryptedMessage) (prev : list DecryptedMessage) :
  List.NoDup (List.map msg_id prev) ->
  List.NoDup (List.map msg_id (add_message entry prev)).
Proof.
  intros Hnd. destruct (add_message_cases entry prev) as [[_ ->] | [Hno ->]];
    [exact Hnd|].
  rewrite List.map_app. cbn [List.map].
  apply List.NoDup_app; [exact Hnd | |].
  - constructor; [intros [] | constructor].
  - intros x Hx [<- | []]. exact (Hno Hx).
Qed.

Section WithPlatform.

Context {P : Platform} (L : PlatformLaws P).

Lemma decrypt_with_world (ciphertext keyText iv : jsstring) (key : CryptoKey)
    (w : world) :
  snd (decrypt_with ciphertext keyText iv key w) = w.
Proof.
  unfold decrypt_with.
  rewrite bind_lift. destruct (from_base64 ciphertext); [|reflexivity].
  rewrite bind_lift. destruct (from_base64 keyText); [|reflexivity].
  rewrite bind_lift. destruct (from_base64 iv); [|reflexivity].
  rewrite bind_lift. destruct (decrypt_RSA_OAEP key _); [|reflexivity].
  rewrite bind_lift. destruct (importKey_raw_AES_GCM _ _ _); [|reflexivity].
  rewrite bind_lift. destruct (decrypt_AES_GCM _ _ _); reflexivity.
Qed.

Lemma decryptMessage_world (ciphertext encryptedKeyData iv : jsstring)
    (key : CryptoKey) (myUserId : jsstring) (w : world) :
  snd (decryptMessage ciphertext encryptedKeyData iv key myUserId w) = w.
Proof. unfold decryptMessage. apply decrypt_with_world. Qed.

Lemma try_decrypt {A} (key : CryptoKey) (userId : jsstring) (msg : message_row)
    (fallback : jsstring) (f : jsstring -> A) (g : A) (w : world) :
  try_await
    (bind (decryptMessage (row_ciphertext msg) (row_encrypted_key msg) (row_iv msg)
             key userId)
          (fun text => ret (f text)))
    (ret g) w
  = (Ok (match fst (decryptMessage (row_ciphertext msg) (row_encrypted_key msg)
                      (row_iv msg) key userId w) with
         | Ok text => f text
         | Throw _ => g
         end), w).
Proof.
  unfold try_await, bind.
  pose proof (decryptMessage_world (row_ciphertext msg) (row_encrypted_key msg)
                (row_iv msg) key userId w) as Hw.
  destruct (decryptMessage _ _ _ key userId w) as [[text|e] w']; cbn [snd fst] in *;
    subst w'; reflexivity.
Qed.

Lemma loadMessages_loop_spec (key : CryptoKey) (userId : jsstring)
    (rows : list message_row) :
  forall (decrypted : list DecryptedMessage) (w : world),
  loadMessages_loop key userId rows decrypted w
  = (Ok (decrypted
         ++ List.map (fun msg =>
                        decrypted_message msg (text_or unable_to_decrypt key userId msg w))
              rows), w).
Proof.
  induction rows as [|msg rows IH]; intros decrypted w; cbn [loadMessages_loop List.map].
  - rewrite app_nil_r. reflexivity.
  - erewrite bind_ok; cycle 1.
    { apply (try_decrypt key userId msg unable_to_decrypt
               (fun text => decrypted_message msg text)). }
    rewrite IH, <- app_assoc. cbn [app]. unfold text_or.
    destruct (fst (decryptMessage _ _ _ key userId w)); reflexivity.
Qed.

Lemma loadMessages_spec (key : CryptoKey) (userId : jsstring)
    (rows : list message_row) (w : world) :
  loadMessages key userId (Some rows) w
  = (Ok (Some (List.map (fun msg =>
                           decrypted_message msg
                             (text_or unable_to_decrypt key userId msg w))
                 rows)), w).
Proof.
  cbn [loadMessages]. erewrite bind_ok by apply loadMessages_loop_spec. reflexivity.
Qed.

(** X12.  [loadMessages] never rejects and skips no row: for every list of
    rows and every key it gives [setMessages] one entry per row, in the
    order of the rows and with the row's [id], [sender_id], [created_at]
    and [read_at]; the text of an entry is what [decryptMessage] returns
    for the row, or the text Unable to decrypt when it throws.  Nothing is
    stored and no randomness is used. *)
Theorem loadMessages_shows_every_row (key : CryptoKey) (userId : jsstring)
    (rows : list message_row) (w : world) :
  exists shown,
    loadMessages key userId (Some rows) w = (Ok (Some shown), w)
    /\ List.map msg_id shown = List.map row_id rows
    /\ List.map msg_sender_id shown = List.map row_sender_id rows
    /\ List.map msg_created_at shown = List.map row_created_at rows
    /\ List.map msg_read_at shown = List.map row_read_at rows
    /\ List.map msg_text shown
       = List.map (fun msg =>
                     match fst (decryptMessage (row_ciphertext msg)
                                  (row_encrypted_key msg) (row_iv msg) key userId w) with
                     | Ok text => text
                     | Throw _ => unable_to_decrypt
                     end) rows.
Proof.
  eexists. split; [apply loadMessages_spec|].
  rewrite !List.map_map. cbn [decrypted_message msg_id msg_sender_id msg_created_at
    msg_read_at msg_text]. repeat split; reflexivity.
Qed.

(** X13.  The handlers of the channel keep the displayed list in order and
    free of repeated identifiers.  The INSERT handler never rejects; it
    leaves the list as it is or adds one entry at its end, and it adds one
    only for a row of this conversation whose [id] is not in the list.  It
    passes a row to [markAsRead] only when the row came from the friend and
    [decryptMessage] returned its text.  The UPDATE handler changes no
    identifier and no text. *)
Theorem handlers_keep_the_list (friendId userId : jsstring) (privateKey : CryptoKey)
    (msg updatedMsg : message_row) (messages : list DecryptedMessage) (w : world) :
  exists shown marked,
    on_insert friendId userId privateKey msg messages w = (Ok (shown, marked), w)
    /\ (shown = messages
        \/ exists entry,
             shown = messages ++ [entry]
             /\ msg_id entry = row_id msg
             /\ ~ In (row_id msg) (List.map msg_id messages)
             /\ ((row_sender_id msg = friendId /\ row_receiver_id msg = userId)
                 \/ (row_sender_id msg = userId /\ row_receiver_id msg = friendId)))
    /\ (List.NoDup (List.map msg_id messages) -> List.NoDup (List.map msg_id shown))
    /\ (marked = []
        \/ (marked = [row_id msg]
            /\ row_sender_id msg = friendId /\ row_receiver_id msg = userId
            /\ exists text,
                 decryptMessage (row_ciphertext msg) (row_encrypted_key msg)
                   (row_iv msg) privateKey userId w = (Ok text, w)))
    /\ List.map msg_id (on_update updatedMsg messages) = List.map msg_id messages
    /\ List.map msg_text (on_update updatedMsg messages) = List.map msg_text messages.
Proof.
  assert (Hupd : List.map msg_id (on_update updatedMsg messages) = List.map msg_id messages
                 /\ List.map msg_text (on_update updatedMsg messages)
                    = List.map msg_text messages).
  { unfold on_update. rewrite !List.map_map. split; apply List.map_ext; intros m;
      destruct (str_eqb (msg_id m) (row_id updatedMsg)); reflexivity. }
  unfold on_insert.
  destruct (str_eqb (row_sender_id msg) friendId) eqn:Esf;
    destruct (str_eqb (row_receiver_id msg) userId) eqn:Eru;
    destruct (str_eqb (row_sender_id msg) userId) eqn:Esu;
    destruct (str_eqb (row_receiver_id msg) friendId) eqn:Erf;
    cbn [andb negb];
    try (exists messages, []; unfold ret;
         split; [reflexivity|]; split; [left; reflexivity|]; split; [auto|];
         split; [left; reflexivity | exact Hupd]).
  all: repeat match goal with
              | H : str_eqb _ _ = true |- _ => apply str_eqb_true in H
              | H : str_eqb _ _ = false |- _ => apply str_eqb_false in H
              end.
  all: match goal with
       | |- context [try_await (bind _ (fun text => ret (@?f text))) (ret ?g)] =>
           rewrite (try_decrypt privateKey userId msg encrypted_message f g w)
       end.
  all: pose proof (decryptMessage_world (row_ciphertext msg) (row_encrypted_key msg)
                     (row_iv msg) privateKey userId w) as Hw.
  all: destruct (decryptMessage (row_ciphertext msg) (row_encrypted_key msg)
                   (row_iv msg) privateKey userId w) as [[text|e] w'] eqn:Edec;
       cbn [fst snd] in *; subst w'.
  all: eexists _, _; split; [reflexivity|].
  all: split;
       [ match goal with
         | |- context [add_message ?entry ?prev] =>
             destruct (add_message_cases entry prev) as [[_ ->] | [Hno ->]];
             [left; reflexivity
             |right; exists entry; split; [reflexivity|]; split; [reflexivity|];
              split; [exact Hno | tauto]]
         end
       | split; [apply add_message_NoDup|] ].
  all: split; [|exact Hupd].
  all: try (left; reflexivity).
  all: right; split; [reflexivity|]; split; [congruence|]; split; [congruence|];
       exists text; reflexivity.
Qed.

(** ** [sendMessage] *)






(** ** [init] *)

Lemma init_spec (password userId : jsstring) (data : option (list message_row))
    (w : world) :
  password <> [] ->
  init (Some password) userId data w
  = (Ok match fst (retrievePrivateKey userId password w) with
        | Throw _ => mkInit None None (Some CouldNotDecryptKeys)
        | Ok None => mkInit None None None
        | Ok (Some key) =>
            mkInit (Some key)
              (option_map
                 (List.map (fun msg =>
                              decrypted_message msg
                                (text_or unable_to_decrypt key userId msg w)))
                 data)
              None
        end, w).
Proof.
  intros Hp. unfold init. destruct password as [|c password]; [congruence|].
  unfold try_await at 1, bind at 1.
  destruct (w_store w !! userId) as [d|] eqn:E.
  - rewrite (retrievePrivateKey_stored L userId (c :: password) d w E). cbn [fst].
    destruct (aes_gcm_decrypt _ _ _) as [m|]; [|reflexivity].
    destruct (pkcs8_decode m) as [sk|]; [|reflexivity].
    unfold try_await. destruct data as [rows|].
    + erewrite bind_ok by apply loadMessages_spec. reflexivity.
    + reflexivity.
  - rewrite (retrieve_nothing userId (c :: password) w E). reflexivity.
Qed.

(** X15.  [init] never rejects and changes nothing, and it shows messages
    only with an unlocked key: a list is given to [setMessages] only when
    [retrievePrivateKey] returned a key, and then no error is shown.  When
    the store holds nothing for the user (a new device), [init] sets no
    key, shows no message and reports no error; without a password in the
    session it reports that the session expired. *)
Theorem init_outcomes (password : option jsstring) (userId : jsstring)
    (data : option (list message_row)) (w : world) :
  exists st,
    init password userId data w = (Ok st, w)
    /\ (init_messages st <> None ->
        init_toast st = None
        /\ exists pw key,
             password = Some pw
             /\ retrievePrivateKey userId pw w = (Ok (Some key), w)
             /\ init_privateKey st = Some key)
    /\ (password = None \/ password = Some [] ->
        st = mkInit None None (Some SessionExpired))
    /\ (forall pw, password = Some pw -> pw <> [] -> w_store w !! userId = None ->
        st = mkInit None None None).
Proof.
  destruct password as [[|c pw]|].
  - eexists. split; [reflexivity|]. cbn [init_messages].
    split; [congruence|]. split; [reflexivity|]. intros pw [= <-]. congruence.
  - assert (Hne : c :: pw <> []) by discriminate.
    rewrite (init_spec (c :: pw) userId data w Hne).
    eexists. split; [reflexivity|]. split; [|split].
    + destruct (retrievePrivateKey userId (c :: pw) w) as [[[key|]|e] w'] eqn:E;
        cbn [fst init_messages init_toast init_privateKey]; try congruence.
      intros _. destruct (retrieved_key L userId (c :: pw) w w' key E) as [-> _].
      split; [reflexivity|]. exists (c :: pw), key.
      split; [reflexivity|]. split; [exact E | reflexivity].
    + intros [H | H]; discriminate H.
    + intros pw' [= <-] _ Habs.
      rewrite (retrieve_nothing userId (c :: pw) w Habs). reflexivity.
  - eexists. split; [reflexivity|]. cbn [init_messages].
    split; [congruence|]. split; [reflexivity|]. intros pw H. discriminate H.
Qed.

End WithPlatform.

End ChatFacts.
(* ===================================================================== *)
(** * Proofs: from the sign-up form to a message read *)

Module AuthFacts.

Import Utf8 Js JsValue JsString WebCrypto Crypto Chat Auth Spec Notions.
Import Base64Facts Utf8Facts JsonFacts CryptoFacts VaultFacts EnvelopeFacts
  MessageFacts KeyFacts ChatFacts.

Section WithPlatform.

Context {P : Platform} (L : PlatformLaws P).

Lemma fields_accepted (email username password : jsstring) :
  email <> [] -> (3 <= length username)%nat -> (6 <= length password)%nat ->
  is_empty email || is_empty username || is_empty password = false
  /\ (length username <? 3)%nat = false
  /\ (length password <? 6)%nat = false.
Proof.
  intros He Hu Hp. unfold is_empty.
  rewrite (bool_decide_eq_false_2 _ He).
  rewrite !bool_decide_eq_false_2
    by (intros ->; cbn [length] in *; lia).
  split; [reflexivity|]. split; apply Nat.ltb_ge; assumption.
Qed.

(** What [handleSignup] does with accepted fields. *)
Lemma handleSignup_spec (email username password : jsstring)
    (signUp : signUp_result) (w : world) :
  email <> [] -> (3 <= length username)%nat -> (6 <= length password)%nat ->
  handleSignup email username password signUp w
  = match rsa_generate 2048 [x01; x00; x01] (w_rng w) with
    | (None, g) => (Ok SignupFailed, mkWorld g (w_store w))
    | (Some (pk, sk), g) =>
        match signUp with
        | User id =>
            let (salt, g1) := random_bytes g 16 in
            let (iv, g2) := random_bytes g1 12 in
            (Ok (AccountCreated id (b64 (spki_encode pk))),
             mkWorld g2
               (<[id := mkRecord
                          (aes_gcm_encrypt (derived_key password salt) iv
                             (pkcs8_encode sk))
                          salt iv]> (w_store w)))
        | _ => (Ok SignupFailed, mkWorld g (w_store w))
        end
    end.
Proof.
  intros He Hu Hp. unfold handleSignup.
  destruct (fields_accepted email username password He Hu Hp) as (-> & -> & ->).
  unfold try_await, bind at 1. rewrite generateKeyPair_spec.
  destruct (rsa_generate 2048 [x01; x00; x01] (w_rng w)) as [[[pk sk]|] g];
    [|reflexivity].
  unfold bind at 1. cbn [publicKey privateKey].
  erewrite exportPublicKey_spec by (repeat split).
  destruct signUp as [| |id]; try reflexivity.
  unfold bind.
  rewrite (storePrivateKey_spec L id _ sk password) by (repeat split).
  cbn [w_rng w_store].
  destruct (random_bytes g 16) as [salt g1].
  destruct (random_bytes g1 12) as [iv g2]. reflexivity.
Qed.

(** X16.  [handleSignup] never rejects, and it writes to the key store
    only when the account was created: the outcome AccountCreated occurs
    only when the fields were accepted (a non-empty email, a username of at
    least 3 and a password of at least 6 code units) and [signUp] returned
    a user, and then [hasPrivateKey] of that user is true and the records
    of all other users are as they were; with every other outcome the key
    store is as it was. *)
Theorem handleSignup_stores_on_success_only (email username password : jsstring)
    (signUp : signUp_result) (w : world) :
  exists outcome w',
    handleSignup email username password signUp w = (Ok outcome, w')
    /\ match outcome with
       | AccountCreated userId publicKeyStr =>
           signUp = User userId
           /\ email <> [] /\ (3 <= length username)%nat /\ (6 <= length password)%nat
           /\ hasPrivateKey userId w' = (Ok true, w')
           /\ forall other, other <> userId ->
                w_store w' !! other = w_store w !! other
       | _ => w_store w' = w_store w
       end.
Proof.
  destruct (is_empty email || is_empty username || is_empty password) eqn:E1;
    [unfold handleSignup; rewrite E1; do 2 eexists; split; reflexivity|].
  destruct (length username <? 3)%nat eqn:E2;
    [unfold handleSignup; rewrite E1, E2; do 2 eexists; split; reflexivity|].
  destruct (length password <? 6)%nat eqn:E3;
    [unfold handleSignup; rewrite E1, E2, E3; do 2 eexists; split; reflexivity|].
  apply orb_false_iff in E1 as [E1 _]. apply orb_false_iff in E1 as [E1 _].
  apply bool_decide_eq_false in E1. apply Nat.ltb_ge in E2, E3.
  rewrite (handleSignup_spec email username password signUp w E1 E2 E3).
  destruct (rsa_generate 2048 [x01; x00; x01] (w_rng w)) as [[[pk sk]|] g];
    [|do 2 eexists; split; reflexivity].
  destruct signUp as [| |id]; try (do 2 eexists; split; reflexivity).
  destruct (random_bytes g 16) as [salt g1].
  destruct (random_bytes g1 12) as [iv g2].
  do 2 eexists; split; [reflexivity|]. cbn [w_store].
  split; [reflexivity|]. split; [exact E1|]. split; [exact E2|]. split; [exact E3|].
  split.
  - rewrite hasPrivateKey_spec. cbn [w_store]. rewrite lookup_insert_eq. reflexivity.
  - intros other Hne. apply lookup_insert_ne. congruence.
Qed.




End WithPlatform.

End AuthFacts.
(* ===================================================================== *)
(** * Proofs: who writes to the key store, and when a message is sent *)

Module FrameFacts.

Import Utf8 Js JsValue JsString WebCrypto Crypto Chat Auth Spec Notions.
Import Base64Facts Utf8Facts JsonFacts CryptoFacts VaultFacts EnvelopeFacts
  MessageFacts KeyFacts ChatFacts.

Section WithPlatform.

Context {P : Platform}.

Lemma keeps_ret {A} (a : A) : keeps_store (ret a).
Proof. intros w. reflexivity. Qed.

Lemma keeps_throw {A} (e : error) : keeps_store (throw (A := A) e).
Proof. intros w. reflexivity. Qed.

Lemma keeps_lift {A} (r : result A) : keeps_store (lift r).
Proof. intros w. reflexivity. Qed.

Lemma keeps_with_rng {A} (f : rng -> result A * rng) : keeps_store (with_rng f).
Proof. intros w. unfold with_rng. destruct (f (w_rng w)). reflexivity. Qed.

Lemma keeps_store_get (key : jsstring) : keeps_store (store_get key).
Proof. intros w. reflexivity. Qed.

Lemma keeps_bind {A B} (m : M A) (k : A -> M B) :
  keeps_store m -> (forall a, keeps_store (k a)) -> keeps_store (bind m k).
Proof.
  intros Hm Hk w. unfold bind. specialize (Hm w).
  destruct (m w) as [[a|e] w1]; cbn [snd] in *; [|exact Hm].
  rewrite Hk. exact Hm.
Qed.

Lemma keeps_try_await {A} (body handler : M A) :
  keeps_store body -> keeps_store handler -> keeps_store (try_await body handler).
Proof.
  intros Hb Hh w. unfold try_await. specialize (Hb w).
  destruct (body w) as [[a|e] w1]; cbn [snd] in *; [exact Hb|].
  rewrite Hh. exact Hb.
Qed.

Ltac keeps :=
  repeat first
    [ apply keeps_ret | apply keeps_throw | apply keeps_lift | apply keeps_with_rng
    | apply keeps_store_get | assumption
    | apply keeps_try_await
    | apply keeps_bind; [|intros ?]
    | match goal with
      | |- keeps_store (match ?x with _ => _ end) => destruct x
      end ].

Lemma keeps_wrap_for_entries (raw : bytes) (entries : list (jsstring * CryptoKey)) :
  forall acc, keeps_store (wrap_for_entries entries raw acc).
Proof.
  induction entries as [|[id key] entries IH]; intros acc; cbn [wrap_for_entries].
  - apply keeps_ret.
  - keeps. apply IH.
Qed.

Lemma keeps_encryptMessage (plaintext : jsstring)
    (publicKeys : list (jsstring * CryptoKey)) :
  keeps_store (encryptMessage plaintext publicKeys).
Proof.
  unfold encryptMessage, getRandomValues.
  apply keeps_bind; [apply keeps_with_rng | intros aesKey].
  apply keeps_bind; [apply keeps_with_rng | intros ivArr].
  apply keeps_bind; [apply keeps_lift | intros ciphertextBuf].
  apply keeps_bind; [apply keeps_lift | intros exportedAesKey].
  apply keeps_bind; [apply keeps_wrap_for_entries | intros keys].
  keeps.
Qed.

Lemma keeps_decryptMessage (ciphertext encryptedKeyData iv : jsstring)
    (key : CryptoKey) (myUserId : jsstring) :
  keeps_store (decryptMessage ciphertext encryptedKeyData iv key myUserId).
Proof. intros w. rewrite decryptMessage_world. reflexivity. Qed.

Lemma keeps_importPublicKey (base64 : jsstring) : keeps_store (importPublicKey base64).
Proof. unfold importPublicKey. keeps. Qed.

Lemma keeps_exportPublicKey (key : CryptoKey) : keeps_store (exportPublicKey key).
Proof. unfold exportPublicKey. keeps. Qed.

Lemma keeps_generateKeyPair : keeps_store generateKeyPair.
Proof. unfold generateKeyPair. keeps. Qed.

Lemma keeps_retrievePrivateKey (userId password : jsstring) :
  keeps_store (retrievePrivateKey userId password).
Proof. unfold retrievePrivateKey, decryptPrivateKey. keeps. Qed.

Lemma keeps_hasPrivateKey (userId : jsstring) : keeps_store (hasPrivateKey userId).
Proof. unfold hasPrivateKey. keeps. Qed.

Lemma keeps_loadMessages_loop (key : CryptoKey) (userId : jsstring)
    (rows : list message_row) :
  forall decrypted, keeps_store (loadMessages_loop key userId rows decrypted).
Proof.
  induction rows as [|msg rows IH]; intros decrypted; cbn [loadMessages_loop].
  - apply keeps_ret.
  - apply keeps_bind; [|intros entry; apply IH].
    apply keeps_try_await; [|apply keeps_ret].
    apply keeps_bind; [apply keeps_decryptMessage | intros text; apply keeps_ret].
Qed.

Lemma keeps_loadMessages (key : CryptoKey) (userId : jsstring)
    (data : option (list message_row)) :
  keeps_store (loadMessages key userId data).
Proof.
  destruct data as [rows|]; cbn [loadMessages]; [|apply keeps_ret].
  apply keeps_bind; [apply keeps_loadMessages_loop | intros d; apply keeps_ret].
Qed.

Lemma keeps_init (password : option jsstring) (userId : jsstring)
    (data : option (list message_row)) :
  keeps_store (init password userId data).
Proof.
  unfold init. destruct password as [[|c pw]|]; try apply keeps_ret.
  apply keeps_try_await; [|apply keeps_ret].
  apply keeps_bind; [apply keeps_retrievePrivateKey | intros [key|]];
    [|apply keeps_ret].
  apply keeps_try_await; [|apply keeps_ret].
  apply keeps_bind; [apply keeps_loadMessages | intros shown; apply keeps_ret].
Qed.

Lemma keeps_on_insert (friendId userId : jsstring) (privateKey : CryptoKey)
    (msg : message_row) (messages : list DecryptedMessage) :
  keeps_store (on_insert friendId userId privateKey msg messages).
Proof.
  unfold on_insert.
  destruct (negb _ && negb _); [apply keeps_ret|].
  apply keeps_try_await; [|apply keeps_ret].
  apply keeps_bind; [apply keeps_decryptMessage | intros text; apply keeps_ret].
Qed.

Lemma keeps_sendMessage (newMessage : jsstring) (sending : bool)
    (friendProfile myProfile : profile) (friendId userId : jsstring) :
  keeps_store (sendMessage newMessage sending friendProfile myProfile friendId userId).
Proof.
  unfold sendMessage.
  destruct (bool_decide (trim newMessage = []) || sending); [apply keeps_ret|].
  destruct (public_key_of friendProfile) as [friend_key|]; [|apply keeps_ret].
  apply keeps_try_await; [|apply keeps_ret].
  apply keeps_bind; [apply keeps_importPublicKey | intros rKey].
  apply keeps_bind.
  - destruct (public_key_of myProfile) as [my_key|]; [|apply keeps_ret].
    apply keeps_bind; [apply keeps_importPublicKey | intros sKey; apply keeps_ret].
  - intros pubKeys.
    apply keeps_bind; [apply keeps_encryptMessage | intros e; apply keeps_ret].
Qed.

(** X20.  Only [storePrivateKey] writes to the key store.  Every other
    function of [crypto.ts], and every handler of the chat page that calls
    them, leaves the object store [keypairs] exactly as it found it,
    whether it returns or throws: [generateKeyPair], [exportPublicKey],
    [importPublicKey], [retrievePrivateKey], [hasPrivateKey],
    [encryptMessage], [decryptMessage], [loadMessages], [init], the INSERT
    handler and [sendMessage]. *)
Theorem only_storePrivateKey_writes :
  keeps_store generateKeyPair
  /\ (forall key, keeps_store (exportPublicKey key))
  /\ (forall base64, keeps_store (importPublicKey base64))
  /\ (forall userId password, keeps_store (retrievePrivateKey userId password))
  /\ (forall userId, keeps_store (hasPrivateKey userId))
  /\ (forall plaintext publicKeys, keeps_store (encryptMessage plaintext publicKeys))
  /\ (forall ciphertext encryptedKeyData iv key myUserId,
        keeps_store (decryptMessage ciphertext encryptedKeyData iv key myUserId))
  /\ (forall key userId data, keeps_store (loadMessages key userId data))
  /\ (forall password userId data, keeps_store (init password userId data))
  /\ (forall friendId userId privateKey msg messages,
        keeps_store (on_insert friendId userId privateKey msg messages))
  /\ (forall newMessage sending friendProfile myProfile friendId userId,
        keeps_store
          (sendMessage newMessage sending friendProfile myProfile friendId userId)).
Proof.
  split; [exact keeps_generateKeyPair|].
  split; [exact keeps_exportPublicKey|].
  split; [exact keeps_importPublicKey|].
  split; [exact keeps_retrievePrivateKey|].
  split; [exact keeps_hasPrivateKey|].
  split; [exact keeps_encryptMessage|].
  split; [exact keeps_decryptMessage|].
  split; [exact keeps_loadMessages|].
  split; [exact keeps_init|].
  split; [exact keeps_on_insert | exact keeps_sendMessage].
Qed.

(** ** When [sendMessage] sends *)

Lemma try_await_total {A} (body handler : M A) (w : world) (fallback : A) :
  (forall w1, handler w1 = (Ok fallback, w1)) ->
  exists a w', try_await body handler w = (Ok a, w')
               /\ (a = fallback \/ body w = (Ok a, w')).
Proof.
  intros Hh. unfold try_await. destruct (body w) as [[a|e] w1].
  - exists a, w1. split; [reflexivity | right; reflexivity].
  - rewrite Hh. exists fallback, w1. split; [reflexivity | left; reflexivity].
Qed.

(** X21.  [sendMessage] never rejects, and it sends only what there is to
    send: for a message that is empty or only white space, or while
    another send is under way, it returns at once; for a friend whose
    profile has no public key it reports that encryption is not set up; in
    both cases no key is imported and no randomness is used.  A row is
    given to [insert] only when the trimmed message is not empty, no send
    is under way and the friend has a public key, and that row names the
    user as sender and the friend as receiver. *)
Theorem sendMessage_guards (newMessage : jsstring) (sending : bool)
    (friendProfile myProfile : profile) (friendId userId : jsstring) (w : world) :
  exists outcome w',
    sendMessage newMessage sending friendProfile myProfile friendId userId w
    = (Ok outcome, w')
    /\ (trim newMessage = [] \/ sending = true -> outcome = NotSent /\ w' = w)
    /\ (trim newMessage <> [] -> sending = false ->
        public_key_of friendProfile = None ->
        outcome = NoEncryption /\ w' = w)
    /\ (forall row, outcome = Inserted row ->
          trim newMessage <> [] /\ sending = false
          /\ public_key_of friendProfile <> None
          /\ new_sender_id row = userId /\ new_receiver_id row = friendId).
Proof.
  unfold sendMessage.
  destruct (bool_decide (trim newMessage = [])) eqn:Et.
  { apply bool_decide_eq_true in Et. exists NotSent, w. cbn [orb]. unfold ret.
    split; [reflexivity|]. split; [auto|]. split; [congruence | discriminate]. }
  apply bool_decide_eq_false in Et. destruct sending.
  { exists NotSent, w. cbn [orb]. unfold ret.
    split; [reflexivity|]. split; [auto|]. split; [discriminate | discriminate]. }
  cbn [orb]. destruct (public_key_of friendProfile) as [friend_key|].
  - match goal with
    | |- context [try_await ?body ?handler w] =>
        destruct (try_await_total body handler w SendFailed) as (a & w' & Hrun & Ha);
        [reflexivity|]
    end.
    exists a, w'. split; [exact Hrun|].
    split; [intros [? | ?]; [contradiction | discriminate]|].
    split; [discriminate|].
    intros row ->. destruct Ha as [Ha | Ha]; [discriminate|].
    split; [exact Et|]. split; [reflexivity|]. split; [discriminate|].
    apply bind_inv in Ha as (rKey & w1 & _ & Ha).
    apply bind_inv in Ha as (pubKeys & w2 & _ & Ha).
    apply bind_inv in Ha as (e & w3 & _ & Ha).
    unfold ret in Ha. injection Ha as <- _. split; reflexivity.
  - exists NoEncryption, w. unfold ret. split; [reflexivity|].
    split; [intros [? | ?]; [contradiction | discriminate]|].
    split; [auto | discriminate].
Qed.

End WithPlatform.

End FrameFacts.
(* ===================================================================== *)
(** * The properties of the callers at concrete inputs *)

Module Instances.

Import Utf8 Js JsValue JsString WebCrypto Crypto Chat Auth Spec Notions Example.
Import Base64Facts Utf8Facts JsonFacts CryptoFacts VaultFacts EnvelopeFacts
  LegacyFacts DecryptFacts ToyFacts MessageFacts KeyFacts ChatFacts AuthFacts.

#[local] Existing Instance Toy.platform.

(** X1 at the four bytes of alice's key material. *)
Lemma base64_round_trip_witness :
  to_base64 alice_material = Ok (lit "AQIDBA==")
  /\ from_base64 (lit "AQIDBA==") = Ok alice_material
  /\ forall buf', to_base64 buf' = Ok (lit "AQIDBA==") -> buf' = alice_material.
Proof.
  split; [reflexivity|].
  apply (base64_round_trip alice_material (lit "AQIDBA==")). reflexivity.
Defined.


Lemma hello_envelope_made :
  encryptMessage hello publicKeys w0
  = (Ok hello_envelope, snd (encryptMessage hello publicKeys w0)).
Proof. vm_compute. reflexivity. Qed.

(** X3 at the envelope of [hello] for alice and bob. *)
Lemma envelope_names_recipients_witness :
  encryptMessage hello publicKeys w0
  = (Ok hello_envelope, snd (encryptMessage hello publicKeys w0))
  /\ (forall id key, In (id, key) publicKeys -> can_encrypt key)
  /\ (forall k, In k (names (encryptedKeys hello_envelope))
                <-> In k (names publicKeys) /\ k <> proto_name)
  /\ List.NoDup (names (encryptedKeys hello_envelope))
  /\ w_store (snd (encryptMessage hello publicKeys w0)) = w_store w0.
Proof.
  split; [exact hello_envelope_made|].
  apply (envelope_names_recipients hello publicKeys w0
           (snd (encryptMessage hello publicKeys w0)) hello_envelope).
  exact hello_envelope_made.
Defined.

(** X4 at the envelope of [hello] for alice and bob. *)
Lemma key_field_parses_back_witness :
  Forall (fun p => is_jsstring (fst p) = true) publicKeys
  /\ exists props,
       JSON_parse (encrypted_key_field hello_envelope) = Some (JObj props)
       /\ forall k, obj_get props k
                    = option_map JStr (obj_get (encryptedKeys hello_envelope) k).
Proof.
  assert (H : Forall (fun p : jsstring * CryptoKey => is_jsstring (fst p) = true)
                publicKeys) by (repeat constructor).
  split; [exact H|].
  apply (key_field_parses_back hello publicKeys w0
           (snd (encryptMessage hello publicKeys w0)) hello_envelope H).
  exact hello_envelope_made.
Defined.

Lemma bob_generated_public_extractable :
  extractable_public_key bob_generated_public bob_material.
Proof. repeat split. Qed.


(** X5 at the generated public keys of alice and bob. *)
Lemma exportPublicKey_identifies_witness :
  extractable_public_key alice_generated_public alice_material
  /\ extractable_public_key bob_generated_public bob_material
  /\ (fst (exportPublicKey alice_generated_public w0)
      = fst (exportPublicKey bob_generated_public v0)
      <-> alice_material = bob_material).
Proof.
  split; [exact Witnesses.alice_generated_public_extractable|].
  split; [exact bob_generated_public_extractable|].
  apply (exportPublicKey_identifies laws alice_generated_public bob_generated_public
           alice_material bob_material w0 v0).
  - exact Witnesses.alice_generated_public_extractable.
  - exact bob_generated_public_extractable.
Defined.

(** X6 in the state [w0]. *)
Lemma generateKeyPair_postcondition_witness :
  match generateKeyPair w0 with
  | (Ok kp, w') =>
      (exists pk sk,
         extractable_public_key (publicKey kp) pk
         /\ extractable_private_key (privateKey kp) sk)
      /\ usages (publicKey kp) = [Encrypt]
      /\ usages (privateKey kp) = [Decrypt]
      /\ key_pair (publicKey kp) (privateKey kp)
      /\ w_store w' = w_store w0
  | (Throw e, w') => e = OperationError /\ w_store w' = w_store w0
  end.
Proof. exact (generateKeyPair_postcondition laws w0). Defined.



(** The state after alice's key was stored. *)
Lemma alice_retrieves :
  retrievePrivateKey alice password
    (snd (storePrivateKey alice alice_generated_private password w0))
  = (Ok (Some alice_private),
     snd (storePrivateKey alice alice_generated_private password w0)).
Proof.
  destruct (store_then_retrieve_parts laws alice alice_generated_private
              alice_material password w0 Witnesses.alice_generated_private_extractable)
    as (w1 & d & Hrun & _ & Hget & _).
  rewrite Hrun. exact Hget.
Qed.

(** X9 at the key alice retrieves after it was stored. *)
Lemma retrieved_key_only_decrypts_witness :
  retrievePrivateKey alice password
    (snd (storePrivateKey alice alice_generated_private password w0))
  = (Ok (Some alice_private),
     snd (storePrivateKey alice alice_generated_private password w0))
  /\ snd (storePrivateKey alice alice_generated_private password w0)
     = snd (storePrivateKey alice alice_generated_private password w0)
  /\ can_decrypt alice_private
  /\ extractable alice_private = false
  /\ (forall u pw w2,
        exists w3,
          storePrivateKey u alice_private pw w2
          = (Throw InvalidAccessError, w3)
          /\ w_store w3 = w_store w2)
  /\ (forall plaintext publicKeys id w2,
        In (id, alice_private) publicKeys ->
        exists e w3, encryptMessage plaintext publicKeys w2 = (Throw e, w3)).
Proof.
  split; [exact alice_retrieves|].
  apply (retrieved_key_only_decrypts laws alice password
           (snd (storePrivateKey alice alice_generated_private password w0))
           (snd (storePrivateKey alice alice_generated_private password w0))
           alice_private alice_retrieves).
Defined.

(** X10 at the text of alice's public key. *)
Lemma imported_key_only_encrypts_witness :
  importPublicKey alice_key_text w0 = (Ok alice_public, w0)
  /\ w0 = w0
  /\ can_encrypt alice_public
  /\ extractable alice_public = false
  /\ (forall w2,
        exportPublicKey alice_public w2
        = (Throw InvalidAccessError, w2))
  /\ (forall ciphertext encryptedKeyData iv myUserId w2,
        exists e,
          decryptMessage ciphertext encryptedKeyData iv alice_public
            myUserId w2
          = (Throw e, w2)).
Proof.
  split; [reflexivity|].
  apply (imported_key_only_encrypts alice_key_text w0 w0 alice_public).
  reflexivity.
Defined.


(** X15 for alice on a device that holds no key. *)
Lemma init_outcomes_witness :
  exists st,
    init (Some password) alice None w0 = (Ok st, w0)
    /\ (init_messages st <> None ->
        init_toast st = None
        /\ exists pw key,
             Some password = Some pw
             /\ retrievePrivateKey alice pw w0 = (Ok (Some key), w0)
             /\ init_privateKey st = Some key)
    /\ (Some password = None \/ Some password = Some [] ->
        st = mkInit None None (Some SessionExpired))
    /\ (forall pw, Some password = Some pw -> pw <> [] -> w_store w0 !! alice = None ->
        st = mkInit None None None).
Proof. exact (init_outcomes laws (Some password) alice None w0). Defined.

(** X16 at alice's sign-up. *)
Lemma handleSignup_stores_on_success_only_witness :
  exists outcome w',
    handleSignup alice_email alice password (User alice) w0 = (Ok outcome, w')
    /\ match outcome with
       | AccountCreated userId publicKeyStr =>
           User alice = User userId
           /\ alice_email <> [] /\ (3 <= length alice)%nat /\ (6 <= length password)%nat
           /\ hasPrivateKey userId w' = (Ok true, w')
           /\ forall other, other <> userId ->
                w_store w' !! other = w_store w0 !! other
       | _ => w_store w' = w_store w0
       end.
Proof.
  exact (handleSignup_stores_on_success_only laws alice_email alice password
           (User alice) w0).
Defined.






End Instances.
